(** * TADW helpers: a shallow embedding of [src/helpers.py]

    The development follows the Python module function by function:
    [parameter_parser], [normalize_adjacency], [read_graph],
    [read_features] and [read_sparse_features].

    Modelling conventions.
    - Python integers are [Z]; Python lists are [list]; insertion-ordered
      dictionaries are association lists.
    - A raised exception is the [Raise] branch of [result]; the exception
      classes that the module can surface are the constructors of [exn].
    - [float32]/[float64] values are idealised as exact rationals [Q];
      statements about matrix entries use the setoid equality [==].
    - A [scipy.sparse] matrix is its shape together with its list of
      (row, column, value) triples; as in SciPy, several triples at one
      position stand for the sum of their values. *)

From Stdlib Require Import String Ascii.
From Stdlib Require Import ZArith QArith List Finite Bool Lia.
From Stdlib Require Import Sorted Permutation.
From Stdlib Require Import Setoid.
Import ListNotations.

Local Open Scope Z_scope.

(** ** Exceptions as results *)

Inductive exn : Type :=
| ZeroDivisionError
| ValueError
| TypeError.

Inductive result (A : Type) : Type :=
| Ok (a : A)
| Raise (e : exn).

Arguments Ok {A} a.
Arguments Raise {A} e.

Definition bind {A B : Type} (r : result A) (k : A -> result B) : result B :=
  match r with
  | Ok a => k a
  | Raise e => Raise e
  end.

Notation "x <- r ;; k" := (bind r (fun x => k))
  (at level 61, r at next level, right associativity).

Definition raises {A : Type} (r : result A) : Prop :=
  exists e, r = Raise e.

(** [[f(x) for x in xs]] where [f] may raise: the first failure wins. *)
Fixpoint mapM {A B : Type} (f : A -> result B) (xs : list A) : result (list B) :=
  match xs with
  | [] => Ok []
  | x :: xs' => y <- f x ;; ys <- mapM f xs' ;; Ok (y :: ys)
  end.

(** [range(n)] *)
Definition range (n : nat) : list Z := map Z.of_nat (seq 0 n).

(** [len(xs)] *)
Definition len {A : Type} (xs : list A) : Z := Z.of_nat (length xs).

(** [sum] of rationals, left operand first as the list is read. *)
Definition Qsum (qs : list Q) : Q := fold_right Qplus 0%Q qs.

(** ** Sparse matrices ([scipy.sparse]) *)

Module Sparse.

Definition triple : Type := (Z * Z * Q)%type.

Definition t_row (t : triple) : Z := fst (fst t).
Definition t_col (t : triple) : Z := snd (fst t).
Definition t_val (t : triple) : Q := snd t.

Record spmatrix : Type := mk_sp {
  shape : Z * Z;
  triples : list triple
}.

Definition nrows (M : spmatrix) : Z := fst (shape M).
Definition ncols (M : spmatrix) : Z := snd (shape M).

Definition at_pos (i j : Z) (t : triple) : bool :=
  (t_row t =? i) && (t_col t =? j).

(** The value stored at position (i, j): duplicates are summed. *)
Definition entry_of (ts : list triple) (i j : Z) : Q :=
  Qsum (map t_val (filter (at_pos i j) ts)).

Definition entry (M : spmatrix) (i j : Z) : Q := entry_of (triples M) i j.

Definition in_bounds (shp : Z * Z) (t : triple) : bool :=
  (0 <=? t_row t) && (t_row t <? fst shp) &&
  (0 <=? t_col t) && (t_col t <? snd shp).

(** [coo_matrix((values, (row, col)), shape=shp)].  The three sequences
    must have one length, the shape may not be negative and every index
    must lie inside the shape; otherwise SciPy raises [ValueError]. *)
Definition coo_matrix (values : list Q) (row col : list Z) (shp : Z * Z)
  : result spmatrix :=
  if negb ((length row =? length values)%nat && (length col =? length values)%nat)
  then Raise ValueError
  else if (fst shp <? 0) || (snd shp <? 0) then Raise ValueError
  else
    let ts := combine (combine row col) values in
    if forallb (in_bounds shp) ts then Ok (mk_sp shp ts)
    else Raise ValueError.

(** Triples of the product: every stored (i, k) of the left operand meets
    every stored (k, j) of the right operand. *)
Definition mul_triples (xs ys : list triple) : list triple :=
  flat_map (fun x =>
    map (fun y => (t_row x, t_col y, (t_val x * t_val y)%Q))
        (filter (fun y => t_row y =? t_col x) ys)) xs.

Definition mul (A B : spmatrix) : spmatrix :=
  mk_sp (nrows A, ncols B) (mul_triples (triples A) (triples B)).

Definition plus (A B : spmatrix) : spmatrix :=
  mk_sp (shape A) (triples A ++ triples B).

(** [A.dot(B)]: raises on a dimension mismatch. *)
Definition dot (A B : spmatrix) : result spmatrix :=
  if ncols A =? nrows B then Ok (mul A B) else Raise ValueError.

(** [A + B]: raises on inconsistent shapes. *)
Definition add (A B : spmatrix) : result spmatrix :=
  if (nrows A =? nrows B) && (ncols A =? ncols B)
  then Ok (plus A B) else Raise ValueError.

Definition is_square (A : spmatrix) : Prop := nrows A = ncols A.

Definition pos_eq_dec (p q : Z * Z) : {p = q} + {p <> q}.
Proof. decide equality; apply Z.eq_dec. Defined.

Definition positions (M : spmatrix) : list (Z * Z) :=
  nodup pos_eq_dec (map fst (triples M)).

(** The number of positions that hold a non-zero value. *)
Definition nnz (M : spmatrix) : nat :=
  length (filter (fun p => negb (Qeq_bool (entry M (fst p) (snd p)) 0))
                 (positions M)).

(** Every stored column index lies inside the shape. *)
Definition cols_in_range (M : spmatrix) : Prop :=
  Forall (fun x => 0 <= t_col x < ncols M) (triples M).

(** Every stored index lies inside the shape. *)
Definition bounded (M : spmatrix) : Prop :=
  Forall (fun t => in_bounds (shape M) t = true) (triples M).

(** The dense view of a sparse matrix, entries in lowest terms. *)
Definition to_dense (M : spmatrix) : list (list Q) :=
  map (fun i => map (fun j => Qred (entry M i j)) (range (Z.to_nat (ncols M))))
      (range (Z.to_nat (nrows M))).

End Sparse.

Import Sparse.

(** ** Undirected graphs ([networkx.Graph]) *)

Module Nx.

Definition node : Type := Z.

(** The adjacency structure [_adj]: every node with its neighbours, both
    in insertion order, as Python dictionaries keep them. *)
Definition Graph : Type := list (node * list node).

Definition mem (n : node) (ns : list node) : bool := existsb (Z.eqb n) ns.

(** [graph.nodes()] *)
Definition nodes (g : Graph) : list node := map fst g.

Definition has_node (g : Graph) (n : node) : bool := mem n (nodes g).

(** [graph[n]], the neighbours of [n] (none when [n] is absent). *)
Fixpoint neighbors (g : Graph) (n : node) : list node :=
  match g with
  | [] => []
  | (m, nbrs) :: g' => if m =? n then nbrs else neighbors g' n
  end.

(** [graph.add_node(n)] *)
Definition add_node (g : Graph) (n : node) : Graph :=
  if has_node g n then g else g ++ [(n, [])].

(** [_adj[u][v] = datadict]: a new key goes last, an old one stays. *)
Definition set_adj (g : Graph) (u v : node) : Graph :=
  map (fun p => if fst p =? u
                then (fst p, if mem v (snd p) then snd p else snd p ++ [v])
                else p) g.

(** [graph.add_edge(u, v)] *)
Definition add_edge (g : Graph) (u v : node) : Graph :=
  set_adj (set_adj (add_node (add_node g u) v) u v) v u.

(** [nx.from_edgelist(rows)] *)
Definition from_edgelist (rows : list (node * node)) : Graph :=
  fold_left (fun g e => add_edge g (fst e) (snd e)) rows [].

(** [graph.degree(n)]: a self-loop counts twice. *)
Definition degree (g : Graph) (n : node) : Z :=
  len (neighbors g n) + (if mem n (neighbors g n) then 1 else 0).

(** [graph.edges()]: every edge once, reported from the endpoint that
    comes first in node order. *)
Fixpoint edges_from (seen : list node) (g : Graph) : list (node * node) :=
  match g with
  | [] => []
  | (n, nbrs) :: g' =>
      map (fun nbr => (n, nbr)) (filter (fun nbr => negb (mem nbr seen)) nbrs)
      ++ edges_from (n :: seen) g'
  end.

Definition edges (g : Graph) : list (node * node) := edges_from [] g.

(** The states a [networkx.Graph] can be in: node keys are distinct, a
    neighbour list has no repetition, and adjacency is symmetric. *)
Definition well_formed (g : Graph) : Prop :=
  NoDup (nodes g) /\
  (forall n, NoDup (neighbors g n)) /\
  (forall u v, In v (neighbors g u) -> In u (neighbors g v)).

End Nx.

(** ** [normalize_adjacency] and [read_graph] *)

(** [1.0 / d] for an integer [d] *)
Definition inverse_degree (d : Z) : result Q :=
  if d =? 0 then Raise ZeroDivisionError else Ok (1 / inject_Z d)%Q.

(** Lines 80-85 of [normalize_adjacency]: the adjacency matrix with weight
    1.0 in both directions of every edge, before the degree scaling. *)
Definition raw_adjacency (graph : Nx.Graph) : result spmatrix :=
  let ind := range (length (Nx.nodes graph)) in
  let edges := Nx.edges graph in
  let index_1 := map fst edges ++ map snd edges in
  let index_2 := map snd edges ++ map fst edges in
  let values := map (fun _ => 1%Q) edges ++ map (fun _ => 1%Q) edges in
  let shape := (len ind, len ind) in
  coo_matrix values index_1 index_2 shape.

Definition normalize_adjacency (graph : Nx.Graph) : result spmatrix :=
  let ind := range (length (Nx.nodes graph)) in
  degs <- mapM (fun node => inverse_degree (Nx.degree graph node)) (Nx.nodes graph) ;;
  A <- raw_adjacency graph ;;
  degs <- coo_matrix degs ind ind (shape A) ;;
  dot A degs.

(** The loop of [read_graph]: [steps] iterations remain. *)
Fixpoint power_loop (steps : nat) (A powered_A out_A : spmatrix) : result spmatrix :=
  match steps with
  | O => Ok out_A
  | S steps' =>
      powered_A' <- dot powered_A A ;;
      out_A' <- add out_A powered_A' ;;
      power_loop steps' A powered_A' out_A'
  end.

(** Lines 100-106 of [read_graph]. *)
Definition target_matrix (A : spmatrix) (order : Z) : result spmatrix :=
  if order >? 1 then power_loop (Z.to_nat (order - 1)) A A A
  else Ok A.

(** [read_graph], from the rows of the edge table. *)
Definition read_graph (rows : list (Z * Z)) (order : Z) : result spmatrix :=
  let graph := Nx.from_edgelist rows in
  A <- normalize_adjacency graph ;;
  target_matrix A order.

(** *** Edge weights in the words of the specification *)

(** The weight that the undirected edges of [graph] put at position (i, j):
    an edge between i and j contributes 1 at (i, j) and 1 at (j, i), so a
    self-loop, whose two positions coincide, weighs 2. *)
Definition edge_weight (graph : Nx.Graph) (i j : Z) : Q :=
  if Nx.mem j (Nx.neighbors graph i)
  then (if i =? j then 2 else 1)%Q
  else 0%Q.

(** Whether a row of the edge table joins i and j, in either direction. *)
Definition linked (rows : list (Z * Z)) (i j : Z) : bool :=
  existsb (fun e => ((fst e =? i) && (snd e =? j)) || ((fst e =? j) && (snd e =? i)))
          rows.

(** The rows of an edge table that do not repeat an earlier row, in either
    direction. *)
Fixpoint first_occurrences (seen rows : list (Z * Z)) : list (Z * Z) :=
  match rows with
  | [] => []
  | e :: rest =>
      if linked seen (fst e) (snd e)
      then first_occurrences seen rest
      else e :: first_occurrences (e :: seen) rest
  end.

(** The sum of column [c] of a matrix, over all of its rows. *)
Definition column_sum (M : spmatrix) (c : Z) : Q :=
  Qsum (map (fun r => entry M r c) (range (Z.to_nat (nrows M)))).

(** Every column of the matrix sums to 1. *)
Definition column_stochastic (A : spmatrix) : Prop :=
  forall c, 0 <= c < ncols A -> (column_sum A c == 1)%Q.

(** No stored value of the matrix is negative. *)
Definition nonnegative (A : spmatrix) : Prop :=
  Forall (fun t => (0 <= t_val t)%Q) (triples A).

(** [len(graph.nodes())] *)
Definition node_count (graph : Nx.Graph) : Z := len (Nx.nodes graph).

(** Node identifiers are zero-indexed and contiguous: they are exactly
    0 .. n-1 for n nodes, in whatever order they were inserted. *)
Definition contiguous (graph : Nx.Graph) : Prop :=
  forall z, In z (Nx.nodes graph) <-> 0 <= z < len (Nx.nodes graph).

(** *** The power series in the words of the specification *)

(** [matrix_power A k] is A^k for k >= 1 (and A for k = 0). *)
Fixpoint matrix_power (A : spmatrix) (k : nat) : spmatrix :=
  match k with
  | O => A
  | S k' => match k' with
            | O => A
            | S _ => mul (matrix_power A k') A
            end
  end.

(** [power_series A k] is A^1 + A^2 + ... + A^k for k >= 1. *)
Fixpoint power_series (A : spmatrix) (k : nat) : spmatrix :=
  match k with
  | O => A
  | S k' => match k' with
            | O => A
            | S _ => plus (power_series A k') (matrix_power A k)
            end
  end.

(** ** Dense arrays ([numpy.ndarray], two-dimensional) *)

Module Np.

Section Array.
Context {V : Type}.

Record ndarray : Type := mk_nd {
  nd_shape : nat * nat;
  nd_rows : list (list V)
}.

(** Every array has as many rows, and every row as many cells, as its
    shape says. *)
Definition rectangular (a : ndarray) : Prop :=
  length (nd_rows a) = fst (nd_shape a) /\
  Forall (fun r => length r = snd (nd_shape a)) (nd_rows a).

(** [a[i, j]] *)
Definition item (a : ndarray) (i j : nat) : option V :=
  match nth_error (nd_rows a) i with
  | Some r => nth_error r j
  | None => None
  end.

(** [a[:, 1:]] *)
Definition drop_first_column (a : ndarray) : ndarray :=
  mk_nd (fst (nd_shape a), Nat.pred (snd (nd_shape a)))
        (map (@tl V) (nd_rows a)).

Definition heads (rows : list (list V)) : list V :=
  flat_map (fun r => match r with [] => [] | x :: _ => [x] end) rows.

Fixpoint columns (c : nat) (rows : list (list V)) : list (list V) :=
  match c with
  | O => []
  | S c' => heads rows :: columns c' (map (@tl V) rows)
  end.

(** [a.transpose()] *)
Definition transpose (a : ndarray) : ndarray :=
  mk_nd (snd (nd_shape a), fst (nd_shape a))
        (columns (snd (nd_shape a)) (nd_rows a)).

End Array.

Arguments ndarray V : clear implicits.

End Np.

(** ** [read_features] *)

(** The table that [pd.read_csv] returns, already as [np.array(features)]:
    one row per line of the file, the node identifier in column 0. *)
Definition read_features {V : Type} (features : Np.ndarray V) : Np.ndarray V :=
  Np.transpose (Np.drop_first_column features).

(** ** [read_sparse_features] *)

(** The values a JSON feature list can hold. *)
Inductive json : Type :=
| JInt (z : Z)
| JFloat (q : Q)
| JStr (s : string)
| JNull.

(** Rounding towards zero, as [int] does on a float. *)
Definition Qtruncate (q : Q) : Z := Z.quot (Qnum q) (Zpos (Qden q)).

(** [max(xs)]: raises on the empty sequence. *)
Definition py_max (xs : list Z) : result Z :=
  match xs with
  | [] => Raise ValueError
  | x :: xs' => Ok (fold_left Z.max xs' x)
  end.

Section Loaders.

(** Python's reading of a string as an integer literal, [None] where
    [int(s)] raises. *)
Variable int_of_str : string -> option Z.

(** [int(s)] on a string *)
Definition int_str (s : string) : result Z :=
  match int_of_str s with
  | Some z => Ok z
  | None => Raise ValueError
  end.

(** [int(v)] on a JSON value *)
Definition py_int (v : json) : result Z :=
  match v with
  | JInt z => Ok z
  | JFloat q => Ok (Qtruncate q)
  | JStr s => int_str s
  | JNull => Raise TypeError
  end.

(** The loaded JSON object: node key and feature list, in file order. *)
Definition feature_map : Type := list (string * list json).

Definition read_sparse_features (features : feature_map) : result spmatrix :=
  let index_1 := flat_map (fun kv => snd kv) features in
  index_2 <- mapM int_str
               (flat_map (fun kv => map (fun _ => fst kv) (snd kv)) features) ;;
  let values := repeat 1%Q (length index_1) in
  nodes <- mapM (fun kv => int_str (fst kv)) features ;;
  top_node <- py_max nodes ;;
  let node_count := top_node + 1 in
  features' <- mapM (fun kv => mapM py_int (snd kv)) features ;;
  tops <- mapM (fun fet => py_max (fet ++ [0])) features' ;;
  top_feature <- py_max tops ;;
  let feature_count := top_feature + 1 in
  (* SciPy casts the row indices to its index type; on values that went
     through [int] above this is the same conversion. *)
  row <- mapM py_int index_1 ;;
  coo_matrix values row index_2 (feature_count, node_count).

(** A well-formed mapping, together with its reading [decoded] (node
    identifier and feature indices per key): there is at least one key,
    the keys read as distinct non-negative integers, and every feature
    list holds non-negative integers without repetition. *)
Definition well_formed_features
           (features : feature_map) (decoded : list (Z * list Z)) : Prop :=
  decoded <> [] /\
  Forall2 (fun kv p => int_of_str (fst kv) = Some (fst p) /\
                       snd kv = map JInt (snd p)) features decoded /\
  NoDup (map fst decoded) /\
  Forall (fun p => 0 <= fst p /\ NoDup (snd p) /\
                   Forall (fun f => 0 <= f) (snd p)) decoded.

(** A feature value that [int] rejects. *)
Definition rejected_feature (v : json) : Prop := raises (py_int v).

End Loaders.

(** The ASCII decimal literals with an optional sign: a fragment of what
    [int] accepts, enough to read the keys of the examples. *)
Module Decimal.

Definition digit (c : ascii) : option Z :=
  let n := nat_of_ascii c in
  if ((48 <=? n) && (n <=? 57))%nat then Some (Z.of_nat (n - 48)) else None.

Fixpoint digits (acc : Z) (s : string) : option Z :=
  match s with
  | EmptyString => Some acc
  | String c s' =>
      match digit c with
      | Some d => digits (10 * acc + d) s'
      | None => None
      end
  end.

Definition unsigned (s : string) : option Z :=
  match s with
  | EmptyString => None
  | _ => digits 0 s
  end.

Definition int_of_str (s : string) : option Z :=
  match s with
  | String "-"%char s' => option_map Z.opp (unsigned s')
  | String "+"%char s' => unsigned s'
  | _ => unsigned s
  end.

End Decimal.

(** *** The feature matrix in the words of the specification *)

(** Whether feature [f] is listed for node [n]. *)
Definition listed (decoded : list (Z * list Z)) (f n : Z) : bool :=
  existsb (fun p => (fst p =? n) && Nx.mem f (snd p)) decoded.

(** The largest of a feature list and 0, as [max(fet + [0])] finds it. *)
Definition top_or_zero (fs : list Z) : Z :=
  fold_left Z.max (tl (fs ++ [0])) (hd 0 (fs ++ [0])).

(** How often feature [f] is listed for node [n], over all keys that read
    as [n]. *)
Definition listings (decoded : list (Z * list Z)) (f n : Z) : nat :=
  fold_right
    (fun (p : Z * list Z) (acc : nat) =>
       ((if Z.eqb (fst p) n then count_occ Z.eq_dec (snd p) f else 0) + acc)%nat)
    0%nat decoded.

(** [m] is the maximum of [xs]. *)
Definition is_max (m : Z) (xs : list Z) : Prop :=
  In m xs /\ Forall (fun x => x <= m) xs.

(** One unit at (feature, node) for every listed feature, in file order. *)
Definition indicator_triples (decoded : list (Z * list Z)) : list triple :=
  flat_map (fun p => map (fun f => (f, fst p, 1%Q)) (snd p)) decoded.

(** A feature index is an integer when the JSON value is one. *)
Definition integer_feature (v : json) : Prop :=
  match v with
  | JInt _ => True
  | _ => False
  end.

(** The mapping {"0": [1, 3], "2": [0]}. *)
Definition example_features : list (string * list json) :=
  [("0"%string, [JInt 1; JInt 3]); ("2"%string, [JInt 0])].

(** The mapping {"0": [1.5]}. *)
Definition fractional_features : list (string * list json) :=
  [("0"%string, [JFloat (3 # 2)])].

(** The mapping {"x": [0], "1": [null]}. *)
Definition malformed_features : list (string * list json) :=
  [("x"%string, [JInt 0]); ("1"%string, [JNull])].

(** ** [parameter_parser] *)

Module Args.

(** The namespace that [parse_args] returns; a [nargs="?"] option given
    without a value holds [None]. *)
Record Namespace : Type := mk_args {
  edge_path : option string;
  feature_path : option string;
  output_path : option string;
  dimensions : Z;
  order : Z;
  iterations : Z;
  lambd : Q;
  alpha : Q;
  features : option string;
  lower_control : Q
}.

(** The [default=] of every [add_argument] call. *)
Definition defaults : Namespace := {|
  edge_path := Some "./input/chameleon_edges.csv"%string;
  feature_path := Some "./input/chameleon_features.json"%string;
  output_path := Some "./output/chameleon_tadw.csv"%string;
  dimensions := 32;
  order := 2;
  iterations := 200;
  lambd := 1000;
  alpha := 1 / inject_Z (10 ^ 6);
  features := Some "sparse"%string;
  lower_control := 1 / inject_Z (10 ^ 15)
|}.

(** A rejected command line: [argparse] prints usage and exits. *)
Inductive parse_result : Type :=
| Parsed (ns : Namespace)
| SystemExit.

Section Parser.

(** [int(s)] and [float(s)] on an option value, [None] where they
    raise. *)
Variable int_of_str : string -> option Z.
Variable float_of_str : string -> option Q.

(** One option of the command line, with the value that follows it, if
    any, stored into the namespace after the [type=] conversion. *)
Definition store (ns : Namespace) (opt : string) (raw : option string)
  : parse_result :=
  let with_int (k : Z -> Namespace) :=
    match raw with
    | Some s => match int_of_str s with
                | Some z => Parsed (k z)
                | None => SystemExit
                end
    | None => SystemExit
    end in
  let with_float (k : Q -> Namespace) :=
    match raw with
    | Some s => match float_of_str s with
                | Some q => Parsed (k q)
                | None => SystemExit
                end
    | None => SystemExit
    end in
  if (opt =? "--edge-path")%string then
    Parsed (mk_args raw (feature_path ns) (output_path ns) (dimensions ns)
              (order ns) (iterations ns) (lambd ns) (alpha ns)
              (features ns) (lower_control ns))
  else if (opt =? "--feature-path")%string then
    Parsed (mk_args (edge_path ns) raw (output_path ns) (dimensions ns)
              (order ns) (iterations ns) (lambd ns) (alpha ns)
              (features ns) (lower_control ns))
  else if (opt =? "--output-path")%string then
    Parsed (mk_args (edge_path ns) (feature_path ns) raw (dimensions ns)
              (order ns) (iterations ns) (lambd ns) (alpha ns)
              (features ns) (lower_control ns))
  else if (opt =? "--dimensions")%string then
    with_int (fun z =>
      mk_args (edge_path ns) (feature_path ns) (output_path ns) z
        (order ns) (iterations ns) (lambd ns) (alpha ns)
        (features ns) (lower_control ns))
  else if (opt =? "--order")%string then
    with_int (fun z =>
      mk_args (edge_path ns) (feature_path ns) (output_path ns)
        (dimensions ns) z (iterations ns) (lambd ns) (alpha ns)
        (features ns) (lower_control ns))
  else if (opt =? "--iterations")%string then
    with_int (fun z =>
      mk_args (edge_path ns) (feature_path ns) (output_path ns)
        (dimensions ns) (order ns) z (lambd ns) (alpha ns)
        (features ns) (lower_control ns))
  else if (opt =? "--lambd")%string then
    with_float (fun q =>
      mk_args (edge_path ns) (feature_path ns) (output_path ns)
        (dimensions ns) (order ns) (iterations ns) q (alpha ns)
        (features ns) (lower_control ns))
  else if (opt =? "--alpha")%string then
    with_float (fun q =>
      mk_args (edge_path ns) (feature_path ns) (output_path ns)
        (dimensions ns) (order ns) (iterations ns) (lambd ns) q
        (features ns) (lower_control ns))
  else if (opt =? "--features")%string then
    Parsed (mk_args (edge_path ns) (feature_path ns) (output_path ns)
              (dimensions ns) (order ns) (iterations ns) (lambd ns)
              (alpha ns) raw (lower_control ns))
  else if (opt =? "--lower-control")%string then
    with_float (fun q =>
      mk_args (edge_path ns) (feature_path ns) (output_path ns)
        (dimensions ns) (order ns) (iterations ns) (lambd ns) (alpha ns)
        (features ns) q)
  else SystemExit.

Fixpoint parse_args (ns : Namespace) (supplied : list (string * option string))
  : parse_result :=
  match supplied with
  | [] => Parsed ns
  | (opt, raw) :: rest =>
      match store ns opt raw with
      | Parsed ns' => parse_args ns' rest
      | SystemExit => SystemExit
      end
  end.

(** [parameter_parser], from the options supplied on the command line
    (each with the value that follows it, if any). *)
Definition parameter_parser (supplied : list (string * option string))
  : parse_result :=
  parse_args defaults supplied.

End Parser.

End Args.

(** ** Worked inputs *)

(** The 4-node cycle 0-1-2-3-0: every column of A holds 1/2 at the two
    neighbours. *)
Definition cycle4 : list (Z * Z) := [(0, 1); (1, 2); (2, 3); (3, 0)].

(** The reading of the normalizer's result that scales every column j by
    1/degree(j) with unit edge weights: 1/degree(j) where an edge joins i
    and j, and 0 elsewhere. *)
Definition unit_column_normalized (graph : Nx.Graph) (A : spmatrix) : Prop :=
  forall i j, In i (Nx.nodes graph) -> In j (Nx.nodes graph) ->
    (entry A i j ==
     if Nx.mem j (Nx.neighbors graph i)
     then 1 / inject_Z (Nx.degree graph j) else 0)%Q.

(** A path 0-1 with a self-loop at 0. *)
Definition looped_path : list (Z * Z) := [(0, 0); (0, 1)].

(** The path 1-2, 0-1, listed so that node 1 is met first. *)
Definition unordered_path : list (Z * Z) := [(1, 2); (0, 1)].

(** The edge 0-1 next to an isolated node 2. *)
Definition with_isolated_node : Nx.Graph :=
  Nx.add_node (Nx.from_edgelist [(0, 1)]) 2.

(** An edge table that repeats the edge 0-1 in both directions. *)
Definition repeated_rows : list (Z * Z) := [(0, 1); (1, 0); (0, 1); (1, 2)].

(** A small feature table: two nodes, identifier first, three features. *)
Definition small_table : Np.ndarray Z :=
  Np.mk_nd (2%nat, 4%nat) [[10; 1; 2; 3]; [11; 4; 5; 6]].

(** Its normalized adjacency matrix. *)
Definition cycle4_normalized : spmatrix :=
  Eval vm_compute in
    match normalize_adjacency (Nx.from_edgelist cycle4) with
    | Ok M => M
    | Raise _ => mk_sp (0, 0) []
    end.

(** The matrix a call returned, or nothing when it raised. *)
Definition returned {A : Type} (r : result A) : option A :=
  match r with Ok a => Some a | Raise _ => None end.

(** ** [tab_printer] *)

(** What a cell of the table can hold: the values of a namespace. *)
Inductive cell : Type :=
| CStr (s : string)
| CNone
| CInt (z : Z)
| CFloat (q : Q).

(** Python's string methods, on ASCII text such as attribute names. *)
Module Str.

Definition is_lower (c : ascii) : bool :=
  ((97 <=? nat_of_ascii c) && (nat_of_ascii c <=? 122))%nat.

Definition is_upper (c : ascii) : bool :=
  ((65 <=? nat_of_ascii c) && (nat_of_ascii c <=? 90))%nat.

Definition upper (c : ascii) : ascii :=
  if is_lower c then ascii_of_nat (nat_of_ascii c - 32) else c.

Definition lower (c : ascii) : ascii :=
  if is_upper c then ascii_of_nat (nat_of_ascii c + 32) else c.

Fixpoint map_chars (f : ascii -> ascii) (s : string) : string :=
  match s with
  | EmptyString => EmptyString
  | String c s' => String (f c) (map_chars f s')
  end.

(** [s.replace(old, new)] for single characters *)
Definition replace (old new : ascii) (s : string) : string :=
  map_chars (fun c => if Ascii.eqb c old then new else c) s.

(** [s.capitalize()]: the first character upper case, the rest lower case *)
Definition capitalize (s : string) : string :=
  match s with
  | EmptyString => EmptyString
  | String c s' => String (upper c) (map_chars lower s')
  end.

(** [sorted(keys)] on strings, which Python orders by code point. *)
Fixpoint insert (k : string) (ks : list string) : list string :=
  match ks with
  | [] => [k]
  | k' :: ks' => if String.leb k k' then k :: ks else k' :: insert k ks'
  end.

Definition sorted (ks : list string) : list string :=
  fold_right insert [] ks.

End Str.

(** The part of [texttable.Texttable] that [tab_printer] drives: a header
    and the rows below it, every row a label and a value. *)
Module Texttable.

Record table : Type := mk_table {
  header : option (cell * cell);
  rows : list (cell * cell)
}.

(** [Texttable()] *)
Definition empty : table := mk_table None [].

(** [t.add_rows(new_rows)], whose [header] argument defaults to [True]:
    the first of the new rows becomes the header and the others are
    appended; [new_rows[0]] raises [IndexError] on an empty list, which is
    [None] here. *)
Definition add_rows (t : table) (new_rows : list (cell * cell)) : option table :=
  match new_rows with
  | [] => None
  | first :: others => Some (mk_table (Some first) (rows t ++ others))
  end.

End Texttable.

(** [args[k]] on the dictionary [vars(args)] *)
Fixpoint getitem (args : list (string * cell)) (k : string) : cell :=
  match args with
  | [] => CNone
  | (k', v) :: args' => if String.eqb k' k then v else getitem args' k
  end.

(** The label of a parameter: [k.replace("_", " ").capitalize()] *)
Definition label (k : string) : string :=
  Str.capitalize (Str.replace "_"%char " "%char k).

(** [tab_printer], from the dictionary [vars(args)] to the table that is
    handed to [draw]. *)
Definition tab_printer (args : list (string * cell)) : option Texttable.table :=
  let keys := Str.sorted (map fst args) in
  let t := Texttable.empty in
  match Texttable.add_rows t [(CStr "Parameter", CStr "Value")] with
  | None => None
  | Some t =>
      Texttable.add_rows t (map (fun k => (CStr (label k), getitem args k)) keys)
  end.

(** The cell of a text attribute, which is [None] when a [nargs="?"] option
    came without a value. *)
Definition text_cell (p : option string) : cell :=
  match p with
  | Some s => CStr s
  | None => CNone
  end.

(** [vars(args)] for the namespace of [parameter_parser]: one attribute per
    [add_argument] call, in the order of the calls. *)
Definition namespace_vars (ns : Args.Namespace) : list (string * cell) :=
  [("edge_path"%string, text_cell (Args.edge_path ns));
   ("feature_path"%string, text_cell (Args.feature_path ns));
   ("output_path"%string, text_cell (Args.output_path ns));
   ("dimensions"%string, CInt (Args.dimensions ns));
   ("order"%string, CInt (Args.order ns));
   ("iterations"%string, CInt (Args.iterations ns));
   ("lambd"%string, CFloat (Args.lambd ns));
   ("alpha"%string, CFloat (Args.alpha ns));
   ("features"%string, text_cell (Args.features ns));
   ("lower_control"%string, CFloat (Args.lower_control ns))].

(** The rows of a table from the top, header first. *)
Definition table_lines (t : Texttable.table) : list (cell * cell) :=
  match Texttable.header t with
  | Some h => h :: Texttable.rows t
  | None => Texttable.rows t
  end.

(** A value that the [type=] conversion of its option refuses: an integer
    option with a value that [int] rejects, a float option with a value that
    [float] rejects, or either without any value. *)
Definition refused_option
           (int_of_str : string -> option Z) (float_of_str : string -> option Q)
           (opt : string) (raw : option string) : Prop :=
  let no_int := match raw with
                | Some s => int_of_str s = None
                | None => True
                end in
  let no_float := match raw with
                  | Some s => float_of_str s = None
                  | None => True
                  end in
  (In opt ["--dimensions"; "--order"; "--iterations"]%string /\ no_int) \/
  (In opt ["--lambd"; "--alpha"; "--lower-control"]%string /\ no_float).

(** The attributes of [after] whose option is not among [opts] are those
    of [before]. *)
Definition kept (opts : list string) (before after : Args.Namespace) : Prop :=
  (~ In "--edge-path"%string opts -> Args.edge_path after = Args.edge_path before) /\
  (~ In "--feature-path"%string opts ->
   Args.feature_path after = Args.feature_path before) /\
  (~ In "--output-path"%string opts ->
   Args.output_path after = Args.output_path before) /\
  (~ In "--dimensions"%string opts ->
   Args.dimensions after = Args.dimensions before) /\
  (~ In "--order"%string opts -> Args.order after = Args.order before) /\
  (~ In "--iterations"%string opts ->
   Args.iterations after = Args.iterations before) /\
  (~ In "--lambd"%string opts -> Args.lambd after = Args.lambd before) /\
  (~ In "--alpha"%string opts -> Args.alpha after = Args.alpha before) /\
  (~ In "--features"%string opts -> Args.features after = Args.features before) /\
  (~ In "--lower-control"%string opts ->
   Args.lower_control after = Args.lower_control before).
(** * Properties *)

(** ** Sums of rationals *)

Section QsumFacts.

Local Open Scope Q_scope.

Lemma Qsum_app (a b : list Q) : Qsum (a ++ b) == Qsum a + Qsum b.
Proof.
  induction a as [|x a IH]; simpl.
  - now rewrite Qplus_0_l.
  - rewrite IH. now rewrite Qplus_assoc.
Qed.

Lemma Qsum_map_ext {A : Type} (f g : A -> Q) (l : list A) :
  (forall k, In k l -> f k == g k) ->
  Qsum (map f l) == Qsum (map g l).
Proof.
  induction l as [|x l IH]; intros H; simpl.
  - reflexivity.
  - rewrite (H x) by now left.
    rewrite IH; [reflexivity|]. intros k Hk. apply H. now right.
Qed.

Lemma Qsum_map_plus {A : Type} (f g : A -> Q) (l : list A) :
  Qsum (map (fun k => f k + g k) l) == Qsum (map f l) + Qsum (map g l).
Proof.
  induction l as [|x l IH]; simpl.
  - now rewrite Qplus_0_l.
  - rewrite IH. ring.
Qed.

Lemma Qsum_map_scale {A : Type} (c : Q) (f : A -> Q) (l : list A) :
  Qsum (map (fun k => c * f k) l) == c * Qsum (map f l).
Proof.
  induction l as [|x l IH]; simpl.
  - ring.
  - rewrite IH. ring.
Qed.

Lemma Qsum_map_zero {A : Type} (f : A -> Q) (l : list A) :
  (forall k, In k l -> f k == 0) -> Qsum (map f l) == 0.
Proof.
  induction l as [|x l IH]; intros H; simpl.
  - reflexivity.
  - rewrite (H x) by now left. rewrite IH.
    + ring.
    + intros k Hk. apply H. now right.
Qed.

(** A sum in which one index alone contributes. *)
Lemma Qsum_map_pick (c : Z) (f : Z -> Q) (l : list Z) :
  NoDup l -> In c l ->
  Qsum (map (fun k => if (k =? c)%Z then f k else 0) l) == f c.
Proof.
  induction l as [|x l IH]; intros Hnd Hin; [contradiction|].
  inversion Hnd as [|? ? Hx Hl]; subst. simpl.
  destruct (Z.eqb_spec x c) as [->|Hne].
  - rewrite Qsum_map_zero; [ring|].
    intros k Hk. destruct (Z.eqb_spec k c) as [->|]; [contradiction|reflexivity].
  - destruct Hin as [->|Hin]; [contradiction|].
    rewrite IH by assumption. ring.
Qed.

Lemma Qsum_repeat_one (n : nat) : Qsum (repeat 1 n) == inject_Z (Z.of_nat n).
Proof.
  induction n as [|n IH].
  - reflexivity.
  - cbn [repeat Qsum fold_right]. fold (Qsum (repeat 1 n)). rewrite IH.
    rewrite Nat2Z.inj_succ. unfold Z.succ. rewrite inject_Z_plus. ring.
Qed.

End QsumFacts.

(** ** The range and the monadic map *)

Lemma range_length (n : nat) : length (range n) = n.
Proof. unfold range. now rewrite length_map, length_seq. Qed.

Lemma range_In (n : nat) (k : Z) : In k (range n) <-> 0 <= k < Z.of_nat n.
Proof.
  unfold range. rewrite in_map_iff. split.
  - intros [x [<- Hx]]. apply in_seq in Hx. lia.
  - intros H. exists (Z.to_nat k). split; [lia|]. apply in_seq. lia.
Qed.

Lemma range_NoDup (n : nat) : NoDup (range n).
Proof.
  unfold range. apply Finite.Injective_map_NoDup.
  - intros a b. apply Nat2Z.inj.
  - apply seq_NoDup.
Qed.

Lemma mapM_Ok_length {A B : Type} (f : A -> result B) (xs : list A) (ys : list B) :
  mapM f xs = Ok ys -> length ys = length xs.
Proof.
  revert ys. induction xs as [|x xs IH]; intros ys H; simpl in H.
  - now inversion H.
  - destruct (f x) as [y|e]; [simpl in H|discriminate].
    destruct (mapM f xs) as [ys'|e]; [simpl in H|discriminate].
    inversion H; subst. simpl. f_equal. now apply IH.
Qed.

Lemma mapM_Ok_Forall2 {A B : Type} (f : A -> result B) (xs : list A) (ys : list B) :
  mapM f xs = Ok ys -> Forall2 (fun x y => f x = Ok y) xs ys.
Proof.
  revert ys. induction xs as [|x xs IH]; intros ys H; simpl in H.
  - inversion H. constructor.
  - destruct (f x) as [y|e] eqn:Hfx; [simpl in H|discriminate].
    destruct (mapM f xs) as [ys'|e]; [simpl in H|discriminate].
    inversion H; subst. constructor; auto.
Qed.

Lemma mapM_all_Ok {A B : Type} (f : A -> result B) (g : A -> B) (xs : list A) :
  (forall x, In x xs -> f x = Ok (g x)) -> mapM f xs = Ok (map g xs).
Proof.
  induction xs as [|x xs IH]; intros H; simpl.
  - reflexivity.
  - rewrite (H x) by now left. simpl. rewrite IH; [reflexivity|].
    intros y Hy. apply H. now right.
Qed.

Lemma mapM_Raise {A B : Type} (f : A -> result B) (xs : list A) (e : exn) :
  (forall x, In x xs -> f x = Raise e \/ exists y, f x = Ok y) ->
  (exists x, In x xs /\ f x = Raise e) ->
  mapM f xs = Raise e.
Proof.
  induction xs as [|x xs IH]; intros Hall [x0 [Hin Hx0]]; [contradiction|].
  simpl. destruct (Hall x (or_introl eq_refl)) as [Hx|[y Hy]].
  - now rewrite Hx.
  - rewrite Hy. simpl. rewrite IH; [reflexivity| |].
    + intros z Hz. apply Hall. now right.
    + destruct Hin as [->|Hin]; [congruence|]. now exists x0.
Qed.

(** ** Sparse matrix facts *)

Section SparseFacts.

Local Open Scope Q_scope.

Lemma entry_of_app (xs ys : list triple) (i j : Z) :
  entry_of (xs ++ ys) i j == entry_of xs i j + entry_of ys i j.
Proof.
  unfold entry_of. rewrite filter_app, map_app. apply Qsum_app.
Qed.

Lemma entry_of_cons (x : triple) (xs : list triple) (i j : Z) :
  entry_of (x :: xs) i j ==
  (if at_pos i j x then t_val x else 0) + entry_of xs i j.
Proof.
  unfold entry_of. simpl. destruct (at_pos i j x); simpl; ring.
Qed.

(** Addition of matrices adds entries. *)
Lemma entry_plus (A B : spmatrix) (i j : Z) :
  entry (plus A B) i j == entry A i j + entry B i j.
Proof. apply entry_of_app. Qed.

Lemma entry_of_row_product (x : triple) (ys : list triple) (i j : Z) :
  entry_of (map (fun y => (t_row x, t_col y, t_val x * t_val y))
                (filter (fun y => (t_row y =? t_col x)%Z) ys)) i j ==
  (if (t_row x =? i)%Z then t_val x * entry_of ys (t_col x) j else 0).
Proof.
  destruct (t_row x =? i)%Z eqn:Hrow.
  - induction ys as [|y ys IH]; cbn [filter map].
    + unfold entry_of; simpl; ring.
    + rewrite (entry_of_cons y ys). unfold at_pos at 1.
      destruct (t_row y =? t_col x)%Z; cbn [andb map].
      * rewrite entry_of_cons, IH.
        unfold at_pos, t_row, t_col, t_val in *. cbn [fst snd].
        rewrite Hrow. cbn [andb].
        destruct (snd (fst y) =? j)%Z; ring.
      * rewrite IH. ring.
  - induction ys as [|y ys IH]; cbn [filter map].
    + reflexivity.
    + destruct (t_row y =? t_col x)%Z; cbn [map]; [|exact IH].
      rewrite entry_of_cons, IH.
      unfold at_pos, t_row, t_col, t_val in *. cbn [fst snd].
      rewrite Hrow. cbn [andb]. ring.
Qed.

(** Multiplication of matrices is the row-by-column sum, over any set of
    inner indices that covers the columns stored in the left operand. *)
Lemma entry_of_mul (xs ys : list triple) (ks : list Z) (i j : Z) :
  NoDup ks ->
  Forall (fun x => In (t_col x) ks) xs ->
  entry_of (mul_triples xs ys) i j ==
  Qsum (map (fun k => entry_of xs i k * entry_of ys k j) ks).
Proof.
  intros Hnd. induction xs as [|x xs IH]; intros Hcols.
  - simpl. rewrite Qsum_map_zero; [reflexivity|].
    intros k _. unfold entry_of at 1. simpl. ring.
  - inversion Hcols as [|? ? Hx Hxs]; subst.
    unfold mul_triples. cbn [flat_map]. fold (mul_triples xs ys).
    rewrite entry_of_app, entry_of_row_product, IH by assumption.
    rewrite (Qsum_map_ext
               (fun k => entry_of (x :: xs) i k * entry_of ys k j)
               (fun k => (if (k =? t_col x)%Z
                          then (if (t_row x =? i)%Z then t_val x else 0)
                               * entry_of ys k j
                          else 0)
                         + entry_of xs i k * entry_of ys k j)).
    + rewrite Qsum_map_plus.
      rewrite (Qsum_map_pick (t_col x)
                 (fun k => (if (t_row x =? i)%Z then t_val x else 0)
                           * entry_of ys k j)) by assumption.
      destruct (t_row x =? i)%Z; ring.
    + intros k _. rewrite entry_of_cons. unfold at_pos.
      rewrite (Z.eqb_sym k).
      destruct (t_row x =? i)%Z, (t_col x =? k)%Z; cbn [andb]; ring.
Qed.

Lemma entry_mul (A B : spmatrix) (i j : Z) :
  cols_in_range A ->
  entry (mul A B) i j ==
  Qsum (map (fun k => entry A i k * entry B k j) (range (Z.to_nat (ncols A)))).
Proof.
  intros Hc. unfold entry, mul. cbn [triples].
  apply entry_of_mul; [apply range_NoDup|].
  eapply Forall_impl; [|exact Hc]. cbv beta. intros x Hx.
  apply range_In. lia.
Qed.

End SparseFacts.

(** ** The target matrix ([read_graph]) *)

Section TargetMatrix.

Variable A : spmatrix.
Hypothesis A_square : is_square A.

Lemma matrix_power_shape (k : nat) : shape (matrix_power A k) = shape A.
Proof.
  destruct k as [|k]; [reflexivity|].
  induction k as [|k IH]; [reflexivity|].
  change (matrix_power A (S (S k))) with (mul (matrix_power A (S k)) A).
  unfold mul, nrows, ncols. cbn [shape]. rewrite IH.
  now destruct (shape A).
Qed.

Lemma power_series_shape (k : nat) : shape (power_series A k) = shape A.
Proof.
  destruct k as [|k]; [reflexivity|].
  induction k as [|k IH]; [reflexivity|].
  change (power_series A (S (S k)))
    with (plus (power_series A (S k)) (matrix_power A (S (S k)))).
  unfold plus. cbn [shape]. exact IH.
Qed.

Lemma dot_power (k : nat) :
  dot (matrix_power A (S k)) A = Ok (matrix_power A (S (S k))).
Proof.
  unfold dot, ncols, nrows. rewrite matrix_power_shape.
  fold (ncols A) (nrows A). rewrite <- A_square, Z.eqb_refl. reflexivity.
Qed.

Lemma add_series (k : nat) :
  add (power_series A (S k)) (matrix_power A (S (S k))) =
  Ok (power_series A (S (S k))).
Proof.
  unfold add, ncols, nrows.
  rewrite power_series_shape, matrix_power_shape, !Z.eqb_refl. reflexivity.
Qed.

(** The loop invariant: entering an iteration with A^k and A^1+...+A^k,
    [steps] further iterations end with A^1+...+A^(k+steps). *)
Lemma power_loop_invariant (steps k : nat) :
  power_loop steps A (matrix_power A (S k)) (power_series A (S k)) =
  Ok (power_series A (S (k + steps))).
Proof.
  revert k. induction steps as [|steps IH]; intros k.
  - now rewrite Nat.add_0_r.
  - cbn [power_loop]. rewrite dot_power. cbn [bind].
    rewrite add_series. cbn [bind]. rewrite IH.
    now rewrite Nat.add_succ_r.
Qed.

Lemma target_matrix_order_1 : target_matrix A 1 = Ok A.
Proof. reflexivity. Qed.

Lemma target_matrix_series (order : Z) :
  1 < order ->
  target_matrix A order = Ok (power_series A (Z.to_nat order)).
Proof.
  intros H. unfold target_matrix.
  destruct (Z.gtb_spec order 1) as [_|Hle]; [|lia].
  change A with (matrix_power A 1) at 2.
  change A with (power_series A 1) at 3.
  rewrite power_loop_invariant. do 2 f_equal. lia.
Qed.

End TargetMatrix.

(** The result of [A.dot(B)] has the rows of [A] and the columns of [B]. *)
Lemma dot_shape (A B C : spmatrix) :
  dot A B = Ok C -> shape C = (nrows A, ncols B).
Proof.
  unfold dot. destruct (ncols A =? nrows B); [|discriminate].
  intros H. inversion H. reflexivity.
Qed.

Lemma coo_matrix_shape (values : list Q) (row col : list Z) (shp : Z * Z)
      (M : spmatrix) :
  coo_matrix values row col shp = Ok M -> shape M = shp.
Proof.
  unfold coo_matrix.
  destruct (negb _); [discriminate|].
  destruct (_ || _); [discriminate|].
  destruct (forallb _ _); [|discriminate].
  intros H. inversion H. reflexivity.
Qed.

Lemma coo_matrix_triples (values : list Q) (row col : list Z) (shp : Z * Z)
      (M : spmatrix) :
  coo_matrix values row col shp = Ok M ->
  triples M = combine (combine row col) values.
Proof.
  unfold coo_matrix.
  destruct (negb _); [discriminate|].
  destruct (_ || _); [discriminate|].
  destruct (forallb _ _); [|discriminate].
  intros H. inversion H. reflexivity.
Qed.

(** What [normalize_adjacency] computes when nothing raises. *)
Lemma normalize_adjacency_Ok (graph : Nx.Graph) (A : spmatrix) :
  normalize_adjacency graph = Ok A ->
  exists degs raw D,
    mapM (fun node => inverse_degree (Nx.degree graph node)) (Nx.nodes graph)
      = Ok degs /\
    raw_adjacency graph = Ok raw /\
    coo_matrix degs (range (length (Nx.nodes graph)))
               (range (length (Nx.nodes graph))) (shape raw) = Ok D /\
    A = mul raw D.
Proof.
  unfold normalize_adjacency. intros H.
  destruct (mapM _ _) as [degs|e]; [cbn [bind] in H|discriminate].
  destruct (raw_adjacency graph) as [raw|e]; [cbn [bind] in H|discriminate].
  destruct (coo_matrix degs _ _ _) as [D|e] eqn:HD; [cbn [bind] in H|discriminate].
  exists degs, raw, D. repeat split; try assumption.
  unfold dot in H. destruct (ncols raw =? nrows D); [|discriminate].
  now inversion H.
Qed.

Lemma raw_adjacency_shape (graph : Nx.Graph) (raw : spmatrix) :
  raw_adjacency graph = Ok raw ->
  shape raw = (len (Nx.nodes graph), len (Nx.nodes graph)).
Proof.
  unfold raw_adjacency. intros H. apply coo_matrix_shape in H.
  rewrite H. unfold len. now rewrite range_length.
Qed.

Lemma normalize_adjacency_shape (graph : Nx.Graph) (A : spmatrix) :
  normalize_adjacency graph = Ok A ->
  shape A = (len (Nx.nodes graph), len (Nx.nodes graph)).
Proof.
  intros H. destruct (normalize_adjacency_Ok _ _ H) as (degs & raw & D & _ & Hraw & HD & ->).
  apply coo_matrix_shape in HD. apply raw_adjacency_shape in Hraw.
  unfold mul, nrows, ncols. rewrite HD, Hraw. reflexivity.
Qed.

Lemma normalize_adjacency_square (graph : Nx.Graph) (A : spmatrix) :
  normalize_adjacency graph = Ok A -> is_square A.
Proof.
  intros H. unfold is_square, nrows, ncols.
  now rewrite (normalize_adjacency_shape _ _ H).
Qed.

(** *** The series is the mathematical one *)

Lemma bounded_cols (M : spmatrix) : bounded M -> cols_in_range M.
Proof.
  apply Forall_impl. intros t Ht. unfold in_bounds in Ht. unfold ncols. lia.
Qed.

Lemma coo_matrix_bounded (values : list Q) (row col : list Z) (shp : Z * Z)
      (M : spmatrix) :
  coo_matrix values row col shp = Ok M -> bounded M.
Proof.
  unfold coo_matrix, bounded.
  destruct (negb _); [discriminate|].
  destruct (_ || _); [discriminate|].
  destruct (forallb _ _) eqn:Hall; [|discriminate].
  intros H. inversion H. cbn [shape triples].
  apply Forall_forall. now apply forallb_forall.
Qed.

Lemma mul_triples_In (xs ys : list triple) (t : triple) :
  In t (mul_triples xs ys) ->
  exists x y, In x xs /\ In y ys /\ t_row t = t_row x /\ t_col t = t_col y.
Proof.
  unfold mul_triples. rewrite in_flat_map. intros [x [Hx Ht]].
  apply in_map_iff in Ht. destruct Ht as [y [<- Hy]].
  apply filter_In in Hy. exists x, y. now repeat split.
Qed.

Lemma mul_bounded (A B : spmatrix) : bounded A -> bounded B -> bounded (mul A B).
Proof.
  unfold bounded. rewrite !Forall_forall. intros HA HB t Ht.
  apply mul_triples_In in Ht. destruct Ht as (x & y & Hx & Hy & Hr & Hc).
  specialize (HA x Hx). specialize (HB y Hy).
  unfold in_bounds, mul, nrows, ncols in *. cbn [shape fst snd].
  rewrite Hr, Hc. lia.
Qed.

Lemma normalize_adjacency_bounded (graph : Nx.Graph) (A : spmatrix) :
  normalize_adjacency graph = Ok A -> bounded A.
Proof.
  intros H. destruct (normalize_adjacency_Ok _ _ H) as (degs & raw & D & _ & Hraw & HD & ->).
  apply mul_bounded.
  - unfold raw_adjacency in Hraw. now apply coo_matrix_bounded in Hraw.
  - now apply coo_matrix_bounded in HD.
Qed.

Section SeriesMeaning.

Local Open Scope Q_scope.

Variable A : spmatrix.
Hypothesis A_square : is_square A.
Hypothesis A_bounded : bounded A.

Lemma matrix_power_bounded (k : nat) : bounded (matrix_power A k).
Proof.
  destruct k as [|k]; [assumption|].
  induction k as [|k IH]; [assumption|].
  change (matrix_power A (S (S k))) with (mul (matrix_power A (S k)) A).
  now apply mul_bounded.
Qed.

(** A^(k+1) is A^k times A, entry by entry. *)
Lemma matrix_power_entry (k : nat) (i j : Z) :
  entry (matrix_power A (S (S k))) i j ==
  Qsum (map (fun l => entry (matrix_power A (S k)) i l * entry A l j)
            (range (Z.to_nat (ncols A)))).
Proof.
  change (matrix_power A (S (S k))) with (mul (matrix_power A (S k)) A).
  rewrite entry_mul by (apply bounded_cols, matrix_power_bounded).
  unfold ncols. now rewrite matrix_power_shape.
Qed.

(** The series adds the powers 1..k, entry by entry. *)
Lemma power_series_entry (k : nat) (i j : Z) :
  entry (power_series A (S k)) i j ==
  Qsum (map (fun m => entry (matrix_power A m) i j) (seq 1 (S k))).
Proof.
  induction k as [|k IH].
  - simpl. ring.
  - change (power_series A (S (S k)))
      with (plus (power_series A (S k)) (matrix_power A (S (S k)))).
    rewrite entry_plus, IH.
    replace (seq 1 (S (S k))) with (seq 1 (S k) ++ [S (S k)])
      by (now rewrite (seq_S (S k) 1)).
    rewrite map_app, Qsum_app. simpl. ring.
Qed.

End SeriesMeaning.


Example cycle4_order_1 :
  option_map to_dense (returned (read_graph cycle4 1)) =
  Some [[0; 1 # 2; 0; 1 # 2];
        [1 # 2; 0; 1 # 2; 0];
        [0; 1 # 2; 0; 1 # 2];
        [1 # 2; 0; 1 # 2; 0]]%Q.
Proof. vm_compute. reflexivity. Qed.

Example cycle4_order_2 :
  option_map to_dense (returned (read_graph cycle4 2)) =
  Some [[1 # 2; 1 # 2; 1 # 2; 1 # 2];
        [1 # 2; 1 # 2; 1 # 2; 1 # 2];
        [1 # 2; 1 # 2; 1 # 2; 1 # 2];
        [1 # 2; 1 # 2; 1 # 2; 1 # 2]]%Q.
Proof. vm_compute. reflexivity. Qed.

Example cycle4_order_3 :
  option_map to_dense (returned (read_graph cycle4 3)) =
  Some [[1 # 2; 1; 1 # 2; 1];
        [1; 1 # 2; 1; 1 # 2];
        [1 # 2; 1; 1 # 2; 1];
        [1; 1 # 2; 1; 1 # 2]]%Q.
Proof. vm_compute. reflexivity. Qed.

(** ** Graph construction *)

Section GraphFacts.

Import Nx.

Lemma mem_In (n : node) (ns : list node) : mem n ns = true <-> In n ns.
Proof.
  unfold mem. rewrite existsb_exists. split.
  - intros [x [Hx Heq]]. apply Z.eqb_eq in Heq. now subst.
  - intros H. exists n. split; [assumption|apply Z.eqb_refl].
Qed.

Lemma mem_false (n : node) (ns : list node) : mem n ns = false <-> ~ In n ns.
Proof.
  rewrite <- mem_In. destruct (mem n ns); split; congruence.
Qed.

Lemma neighbors_absent (g : Graph) (n : node) :
  ~ In n (nodes g) -> neighbors g n = [].
Proof.
  induction g as [|[m nbrs] g IH]; intros H; [reflexivity|].
  cbn [neighbors]. cbn [nodes map fst] in H.
  destruct (Z.eqb_spec m n) as [->|Hne].
  - exfalso. apply H. now left.
  - apply IH. intros Hin. apply H. now right.
Qed.

Lemma neighbors_is_node (g : Graph) (n v : node) :
  In v (neighbors g n) -> In n (nodes g).
Proof.
  intros H. destruct (in_dec Z.eq_dec n (nodes g)) as [Hin|Hout]; [assumption|].
  rewrite (neighbors_absent g n Hout) in H. contradiction.
Qed.

Lemma neighbors_app (g h : Graph) (n : node) :
  neighbors (g ++ h) n = if mem n (nodes g) then neighbors g n else neighbors h n.
Proof.
  induction g as [|[m nbrs] g IH]; [reflexivity|].
  cbn [app neighbors nodes map fst mem existsb].
  rewrite (Z.eqb_sym n m).
  destruct (m =? n); [reflexivity|]. cbn [orb]. exact IH.
Qed.

Lemma nodes_add_node (g : Graph) (n : node) :
  nodes (add_node g n) = if mem n (nodes g) then nodes g else nodes g ++ [n].
Proof.
  unfold add_node, has_node. destruct (mem n (nodes g)); [reflexivity|].
  unfold nodes. now rewrite map_app.
Qed.

Lemma neighbors_add_node (g : Graph) (n m : node) :
  neighbors (add_node g n) m = neighbors g m.
Proof.
  unfold add_node, has_node. destruct (mem n (nodes g)) eqn:Hn; [reflexivity|].
  rewrite neighbors_app. destruct (mem m (nodes g)) eqn:Hm; [reflexivity|].
  cbn [neighbors]. apply mem_false in Hm.
  rewrite (neighbors_absent g m Hm). now destruct (n =? m).
Qed.

Lemma nodes_set_adj (g : Graph) (u v : node) : nodes (set_adj g u v) = nodes g.
Proof.
  unfold nodes, set_adj. rewrite map_map. apply map_ext.
  intros [m nbrs]. cbn [fst snd]. now destruct (m =? u).
Qed.

Lemma neighbors_set_adj (g : Graph) (u v m : node) :
  neighbors (set_adj g u v) m =
  if (m =? u) && mem u (nodes g)
  then (if mem v (neighbors g m) then neighbors g m else neighbors g m ++ [v])
  else neighbors g m.
Proof.
  induction g as [|[k nbrs] g IH].
  - cbn. now rewrite andb_false_r.
  - cbn [set_adj map fst snd neighbors nodes mem existsb].
    fold (set_adj g u v). fold (nodes g). fold (mem u (nodes g)).
    rewrite (Z.eqb_sym u k).
    destruct (Z.eqb_spec k u) as [Hku|Hku]; cbn [fst orb];
      destruct (Z.eqb_spec k m) as [Hkm|Hkm].
    + replace (m =? u) with true by (symmetry; apply Z.eqb_eq; lia).
      reflexivity.
    + rewrite IH.
      replace (m =? u) with false by (symmetry; apply Z.eqb_neq; lia).
      reflexivity.
    + replace (m =? u) with false by (symmetry; apply Z.eqb_neq; lia).
      reflexivity.
    + exact IH.
Qed.

Lemma In_neighbors_set_adj (g : Graph) (u v m x : node) :
  In x (neighbors (set_adj g u v) m) <->
  In x (neighbors g m) \/ (m = u /\ x = v /\ In u (nodes g)).
Proof.
  rewrite neighbors_set_adj.
  destruct (Z.eqb_spec m u) as [->|Hmu]; cbn [andb].
  - destruct (mem u (nodes g)) eqn:Hu.
    + apply mem_In in Hu. destruct (mem v (neighbors g u)) eqn:Hv.
      * apply mem_In in Hv. split; [tauto|]. intros [H|(_ & -> & _)]; assumption.
      * rewrite in_app_iff. cbn [In]. split.
        -- intros [H|[<-|[]]]; tauto.
        -- intros [H|(_ & -> & _)]; tauto.
    + apply mem_false in Hu. tauto.
  - tauto.
Qed.

Lemma In_nodes_add_node (g : Graph) (n m : node) :
  In m (nodes (add_node g n)) <-> In m (nodes g) \/ m = n.
Proof.
  rewrite nodes_add_node. destruct (mem n (nodes g)) eqn:Hn.
  - apply mem_In in Hn. split; [tauto|]. intros [H| ->]; assumption.
  - rewrite in_app_iff. cbn [In]. split; [intros [H|[<-|[]]]|intros [H| ->]]; tauto.
Qed.

Lemma In_nodes_add_edge (g : Graph) (u v m : node) :
  In m (nodes (add_edge g u v)) <-> In m (nodes g) \/ m = u \/ m = v.
Proof.
  unfold add_edge. rewrite !nodes_set_adj, !In_nodes_add_node. tauto.
Qed.

(** After [add_edge(u, v)] the two nodes are neighbours of each other and
    nothing else has changed. *)
Lemma In_neighbors_add_edge (g : Graph) (u v m x : node) :
  In x (neighbors (add_edge g u v) m) <->
  In x (neighbors g m) \/ (m = u /\ x = v) \/ (m = v /\ x = u).
Proof.
  unfold add_edge.
  rewrite In_neighbors_set_adj, In_neighbors_set_adj, nodes_set_adj,
          !neighbors_add_node, !In_nodes_add_node.
  tauto.
Qed.

Lemma NoDup_nodes_add_node (g : Graph) (n : node) :
  NoDup (nodes g) -> NoDup (nodes (add_node g n)).
Proof.
  intros H. rewrite nodes_add_node. destruct (mem n (nodes g)) eqn:Hn; [assumption|].
  apply mem_false in Hn. apply NoDup_app; [assumption|repeat constructor; tauto|].
  intros x Hx [<-|[]]. contradiction.
Qed.

Lemma NoDup_neighbors_set_adj (g : Graph) (u v m : node) :
  NoDup (neighbors g m) -> NoDup (neighbors (set_adj g u v) m).
Proof.
  intros H. rewrite neighbors_set_adj.
  destruct ((m =? u) && mem u (nodes g)); [|assumption].
  destruct (mem v (neighbors g m)) eqn:Hv; [assumption|].
  apply mem_false in Hv. apply NoDup_app; [assumption|repeat constructor; tauto|].
  intros x Hx [<-|[]]. contradiction.
Qed.

Lemma well_formed_add_edge (g : Graph) (u v : node) :
  well_formed g -> well_formed (add_edge g u v).
Proof.
  intros (Hn & Hnb & Hsym). repeat split.
  - unfold add_edge. rewrite !nodes_set_adj.
    now apply NoDup_nodes_add_node, NoDup_nodes_add_node.
  - intros n. unfold add_edge.
    apply NoDup_neighbors_set_adj, NoDup_neighbors_set_adj.
    rewrite !neighbors_add_node. apply Hnb.
  - intros a b. rewrite !In_neighbors_add_edge.
    intros [H|[[-> ->]|[-> ->]]]; [left; now apply Hsym|tauto|tauto].
Qed.

Lemma well_formed_empty : well_formed [].
Proof.
  repeat split; try constructor. intros u v [].
Qed.

Lemma fold_add_edge_well_formed (rows : list (node * node)) (g : Graph) :
  well_formed g ->
  well_formed (fold_left (fun g e => add_edge g (fst e) (snd e)) rows g).
Proof.
  revert g. induction rows as [|e rows IH]; intros g Hg; [assumption|].
  cbn [fold_left]. apply IH. now apply well_formed_add_edge.
Qed.

Lemma fold_add_edge_neighbors (rows : list (node * node)) (g : Graph) (u v : node) :
  In v (neighbors (fold_left (fun g e => add_edge g (fst e) (snd e)) rows g) u) <->
  In v (neighbors g u) \/ In (u, v) rows \/ In (v, u) rows.
Proof.
  revert g. induction rows as [|[a b] rows IH]; intros g.
  - cbn. tauto.
  - cbn [fold_left fst snd]. rewrite IH, In_neighbors_add_edge. cbn [In].
    split.
    + intros [[H|[[-> ->]|[-> ->]]]|[H|H]]; tauto.
    + intros [H|[[H|H]|[H|H]]]; try tauto; inversion H; subst; tauto.
Qed.

(** The graph of an edge list is a well-formed undirected graph. *)
Lemma from_edgelist_well_formed (rows : list (node * node)) :
  well_formed (from_edgelist rows).
Proof. apply fold_add_edge_well_formed, well_formed_empty. Qed.

(** Its adjacency is exactly the rows, read in both directions. *)
Lemma from_edgelist_neighbors (rows : list (node * node)) (u v : node) :
  In v (neighbors (from_edgelist rows) u) <-> In (u, v) rows \/ In (v, u) rows.
Proof.
  unfold from_edgelist. rewrite fold_add_edge_neighbors. cbn [neighbors In]. tauto.
Qed.

(** Every node of the graph of an edge list has a neighbour, so its degree
    is at least 1. *)
Lemma fold_add_edge_has_neighbor (rows : list (node * node)) (g : Graph) :
  (forall v, In v (nodes g) -> exists x, In x (neighbors g v)) ->
  forall v,
    In v (nodes (fold_left (fun g e => add_edge g (fst e) (snd e)) rows g)) ->
    exists x,
      In x (neighbors (fold_left (fun g e => add_edge g (fst e) (snd e)) rows g) v).
Proof.
  revert g. induction rows as [|[a b] rows IH]; intros g Hg; [exact Hg|].
  cbn [fold_left fst snd]. apply IH. intros v Hv.
  apply In_nodes_add_edge in Hv. destruct Hv as [Hv|[->| ->]].
  - destruct (Hg v Hv) as [x Hx]. exists x. apply In_neighbors_add_edge. tauto.
  - exists b. apply In_neighbors_add_edge. tauto.
  - exists a. apply In_neighbors_add_edge. tauto.
Qed.

Lemma from_edgelist_degree_positive (rows : list (node * node)) (v : node) :
  In v (nodes (from_edgelist rows)) -> 1 <= degree (from_edgelist rows) v.
Proof.
  intros Hv.
  destruct (fold_add_edge_has_neighbor rows [] (fun v H => match H with end) v Hv)
    as [x Hx].
  unfold degree, len. fold (from_edgelist rows) in Hx.
  destruct (neighbors (from_edgelist rows) v); [contradiction|].
  cbn [length]. destruct (mem v (n :: l)); lia.
Qed.

End GraphFacts.

(** ** The edge view and the raw adjacency matrix *)

Section EdgeFacts.

Import Nx.
Local Open Scope Q_scope.

Lemma combine_app_same {A B : Type} (a a' : list A) (b b' : list B) :
  length a = length b ->
  combine (a ++ a') (b ++ b') = combine a b ++ combine a' b'.
Proof.
  revert b. induction a as [|x a IH]; intros [|y b] H; try discriminate.
  - reflexivity.
  - cbn. f_equal. apply IH. now inversion H.
Qed.

Lemma combine_map_both {A B C : Type} (f : A -> B) (g : A -> C) (l : list A) :
  combine (map f l) (map g l) = map (fun x => (f x, g x)) l.
Proof. induction l as [|x l IH]; cbn; [reflexivity|now f_equal]. Qed.

(** The triples of the raw matrix: every reported edge forwards, then
    every reported edge backwards, each with weight 1. *)
Lemma raw_adjacency_triples (g : Graph) (raw : spmatrix) :
  raw_adjacency g = Ok raw ->
  triples raw = map (fun e => (fst e, snd e, 1)) (edges g)
                ++ map (fun e => (snd e, fst e, 1)) (edges g).
Proof.
  unfold raw_adjacency. intros H. apply coo_matrix_triples in H. rewrite H.
  rewrite combine_app_same by now rewrite !length_map.
  rewrite combine_app_same
    by now rewrite !length_combine, !length_map, Nat.min_id.
  rewrite !combine_map_both. reflexivity.
Qed.

Lemma In_edges_from (seen : list node) (g : Graph) (a b : node) :
  NoDup (nodes g) ->
  In (a, b) (edges_from seen g) ->
  In b (neighbors g a) /\ ~ In b seen.
Proof.
  revert seen. induction g as [|[n nbrs] g IH]; intros seen Hnd H; [contradiction|].
  cbn [nodes map fst] in Hnd. inversion Hnd as [|? ? Hn Hg]; subst.
  cbn [edges_from] in H. apply in_app_or in H. cbn [neighbors].
  destruct H as [H|H].
  - apply in_map_iff in H. destruct H as [x [Heq Hx]]. inversion Heq; subst.
    apply filter_In in Hx. destruct Hx as [Hx Hseen].
    rewrite Z.eqb_refl. split; [assumption|].
    apply mem_false. now destruct (mem b seen).
  - destruct (IH _ Hg H) as [Hb Hs].
    destruct (Z.eqb_spec n a) as [->|_].
    + exfalso. apply Hn. eapply neighbors_is_node. exact Hb.
    + split; [assumption|]. intros Hin. apply Hs. now right.
Qed.

Lemma edges_from_fst (seen : list node) (g : Graph) (a b : node) :
  In (a, b) (edges_from seen g) -> In a (nodes g).
Proof.
  revert seen. induction g as [|[n nbrs] g IH]; intros seen H; [contradiction|].
  cbn [edges_from] in H. apply in_app_or in H. cbn [nodes map fst].
  destruct H as [H|H].
  - apply in_map_iff in H. destruct H as [x [Heq _]]. inversion Heq. now left.
  - right. eapply IH. exact H.
Qed.

Lemma NoDup_edges_from (seen : list node) (g : Graph) :
  NoDup (nodes g) -> (forall n, NoDup (neighbors g n)) ->
  NoDup (edges_from seen g).
Proof.
  revert seen. induction g as [|[n nbrs] g IH]; intros seen Hnd Hnb; [constructor|].
  cbn [nodes map fst] in Hnd. inversion Hnd as [|? ? Hn Hg]; subst.
  cbn [edges_from]. apply NoDup_app.
  - apply Finite.Injective_map_NoDup.
    + intros x y Hxy. now inversion Hxy.
    + apply NoDup_filter. specialize (Hnb n). cbn [neighbors] in Hnb.
      now rewrite Z.eqb_refl in Hnb.
  - apply IH; [assumption|]. intros m. specialize (Hnb m). cbn [neighbors] in Hnb.
    destruct (Z.eqb_spec n m) as [->|_]; [|assumption].
    rewrite neighbors_absent by assumption. constructor.
  - intros [a b] H1 H2. apply in_map_iff in H1. destruct H1 as [x [Heq _]].
    inversion Heq; subst. apply edges_from_fst in H2. contradiction.
Qed.

(** A self-loop is reported. *)
Lemma loop_in_edges_from (seen : list node) (g : Graph) (i : node) :
  In i (neighbors g i) -> ~ In i seen -> In (i, i) (edges_from seen g).
Proof.
  revert seen. induction g as [|[n nbrs] g IH]; intros seen Hi Hs; [contradiction|].
  cbn [neighbors] in Hi. cbn [edges_from]. apply in_or_app.
  destruct (Z.eqb_spec n i) as [->|Hne].
  - left. apply in_map_iff. exists i. split; [reflexivity|].
    apply filter_In. split; [assumption|].
    apply mem_false in Hs. now rewrite Hs.
  - right. apply IH; [assumption|]. intros [H|H]; [contradiction|now apply Hs].
Qed.

(** An edge between two different nodes is reported from one endpoint. *)
Lemma edge_in_edges_from (seen : list node) (g : Graph) (i j : node) :
  NoDup (nodes g) ->
  i <> j ->
  In j (neighbors g i) -> In i (neighbors g j) ->
  ~ In i seen -> ~ In j seen ->
  In (i, j) (edges_from seen g) \/ In (j, i) (edges_from seen g).
Proof.
  revert seen. induction g as [|[n nbrs] g IH];
    intros seen Hnd Hij Hj Hi Hsi Hsj; [contradiction|].
  cbn [nodes map fst] in Hnd. inversion Hnd as [|? ? Hn Hg]; subst.
  cbn [neighbors] in Hj, Hi. cbn [edges_from].
  destruct (Z.eqb_spec n i) as [->|Hni].
  - left. apply in_or_app. left. apply in_map_iff. exists j. split; [reflexivity|].
    apply filter_In. split; [assumption|].
    apply mem_false in Hsj. now rewrite Hsj.
  - destruct (Z.eqb_spec n j) as [->|Hnj].
    + right. apply in_or_app. left. apply in_map_iff. exists i.
      split; [reflexivity|]. apply filter_In. split; [assumption|].
      apply mem_false in Hsi. now rewrite Hsi.
    + destruct (IH (n :: seen) Hg Hij Hj Hi) as [H|H].
      * intros [H|H]; [contradiction|now apply Hsi].
      * intros [H|H]; [contradiction|now apply Hsj].
      * left. apply in_or_app. now right.
      * right. apply in_or_app. now right.
Qed.

(** ... and never from both. *)
Lemma edge_not_twice (seen : list node) (g : Graph) (i j : node) :
  NoDup (nodes g) ->
  i <> j ->
  In (i, j) (edges_from seen g) -> In (j, i) (edges_from seen g) -> False.
Proof.
  revert seen. induction g as [|[n nbrs] g IH]; intros seen Hnd Hij H1 H2; [contradiction|].
  cbn [nodes map fst] in Hnd. inversion Hnd as [|? ? Hn Hg]; subst.
  cbn [edges_from] in H1, H2.
  apply in_app_or in H1. apply in_app_or in H2.
  destruct H1 as [H1|H1], H2 as [H2|H2].
  - apply in_map_iff in H1. destruct H1 as [x [Hx _]].
    apply in_map_iff in H2. destruct H2 as [y [Hy _]].
    inversion Hx; inversion Hy; subst. contradiction.
  - apply in_map_iff in H1. destruct H1 as [x [Hx _]]. inversion Hx; subst.
    apply In_edges_from in H2; [|assumption]. destruct H2 as [_ H2].
    apply H2. now left.
  - apply in_map_iff in H2. destruct H2 as [x [Hx _]]. inversion Hx; subst.
    apply In_edges_from in H1; [|assumption]. destruct H1 as [_ H1].
    apply H1. now left.
  - eapply IH; eassumption.
Qed.

Lemma entry_of_forward_in (E : list (node * node)) (i j : Z) :
  NoDup E -> In (i, j) E ->
  entry_of (map (fun e => (fst e, snd e, 1)) E) i j == 1.
Proof.
  induction E as [|[a b] E IH]; intros Hnd Hin; [contradiction|].
  inversion Hnd as [|? ? Hx HE]; subst.
  cbn [map fst snd]. rewrite entry_of_cons. unfold at_pos, t_row, t_col, t_val.
  cbn [fst snd]. destruct Hin as [Heq|Hin].
  - inversion Heq; subst. rewrite !Z.eqb_refl. cbn [andb].
    enough (entry_of (map (fun e => (fst e, snd e, 1)) E) i j == 0) as -> by ring.
    clear IH HE Hnd. induction E as [|[a b] E IH]; [reflexivity|].
    cbn [map fst snd]. rewrite entry_of_cons. unfold at_pos, t_row, t_col, t_val.
    cbn [fst snd].
    destruct (Z.eqb_spec a i) as [->|]; destruct (Z.eqb_spec b j) as [->|];
      cbn [andb]; try (rewrite IH; [ring|intros H; apply Hx; now right]).
    exfalso. apply Hx. now left.
  - rewrite IH by assumption.
    destruct (Z.eqb_spec a i) as [->|]; destruct (Z.eqb_spec b j) as [->|];
      cbn [andb]; try ring.
    contradiction.
Qed.

Lemma entry_of_forward_out (E : list (node * node)) (i j : Z) :
  ~ In (i, j) E ->
  entry_of (map (fun e => (fst e, snd e, 1)) E) i j == 0.
Proof.
  induction E as [|[a b] E IH]; intros Hx; [reflexivity|].
  cbn [map fst snd]. rewrite entry_of_cons. unfold at_pos, t_row, t_col, t_val.
  cbn [fst snd].
  destruct (Z.eqb_spec a i) as [->|]; destruct (Z.eqb_spec b j) as [->|];
    cbn [andb]; try (rewrite IH; [ring|intros H; apply Hx; now right]).
  exfalso. apply Hx. now left.
Qed.

Lemma entry_of_backward (E : list (node * node)) (i j : Z) :
  entry_of (map (fun e => (snd e, fst e, 1)) E) i j ==
  entry_of (map (fun e => (fst e, snd e, 1)) E) j i.
Proof.
  induction E as [|[a b] E IH]; [reflexivity|].
  cbn [map fst snd]. rewrite !entry_of_cons, IH. unfold at_pos, t_row, t_col, t_val.
  cbn [fst snd]. now rewrite andb_comm.
Qed.

End EdgeFacts.

(** ** Entries of the raw adjacency matrix *)

Section RawEntries.

Import Nx.
Local Open Scope Q_scope.

Variable g : Graph.
Hypothesis g_wf : well_formed g.

Lemma edges_neighbors (a b : node) : In (a, b) (edges g) -> In b (neighbors g a).
Proof.
  intros H. destruct g_wf as (Hnd & _ & _).
  now apply (In_edges_from [] g a b Hnd) in H.
Qed.

Lemma neighbors_symmetric (a b : node) :
  In b (neighbors g a) <-> In a (neighbors g b).
Proof. destruct g_wf as (_ & _ & Hsym). split; apply Hsym. Qed.

Lemma neighbor_is_node (a b : node) : In b (neighbors g a) -> In b (nodes g).
Proof.
  intros H. apply neighbors_symmetric in H. eapply neighbors_is_node. exact H.
Qed.

(** Every position of the raw matrix holds the weight of its edge. *)
Lemma raw_adjacency_entry (raw : spmatrix) (i j : Z) :
  raw_adjacency g = Ok raw -> entry raw i j == edge_weight g i j.
Proof.
  intros Hraw. unfold entry. rewrite (raw_adjacency_triples g raw Hraw).
  rewrite entry_of_app, entry_of_backward.
  destruct g_wf as (Hnd & Hnb & Hsym).
  pose proof (NoDup_edges_from [] g Hnd Hnb) as HE. fold (edges g) in HE.
  unfold edge_weight. destruct (mem j (neighbors g i)) eqn:Hj.
  - apply mem_In in Hj. destruct (Z.eqb_spec i j) as [->|Hij].
    + assert (In (j, j) (edges g)) as Hin
        by (apply loop_in_edges_from; [assumption|intros []]).
      rewrite !entry_of_forward_in by assumption. reflexivity.
    + destruct (edge_in_edges_from [] g i j Hnd Hij Hj (Hsym _ _ Hj))
        as [H|H]; try (intros []).
      * rewrite (entry_of_forward_in _ i j) by assumption.
        rewrite (entry_of_forward_out _ j i); [reflexivity|].
        intros H'. exact (edge_not_twice [] g i j Hnd Hij H H').
      * rewrite (entry_of_forward_in _ j i) by assumption.
        rewrite (entry_of_forward_out _ i j); [reflexivity|].
        intros H'. exact (edge_not_twice [] g i j Hnd Hij H' H).
  - apply mem_false in Hj.
    rewrite (entry_of_forward_out _ i j), (entry_of_forward_out _ j i).
    + reflexivity.
    + intros H. apply edges_neighbors in H. apply Hj. now apply Hsym.
    + intros H. apply edges_neighbors in H. contradiction.
Qed.

Lemma Qsum_member_count (l ks : list Z) :
  NoDup l -> NoDup ks -> incl l ks ->
  Qsum (map (fun k => if mem k l then 1 else 0) ks) == inject_Z (len l).
Proof.
  intros Hl Hks. induction l as [|x l IH]; intros Hincl.
  - cbn. apply Qsum_map_zero. reflexivity.
  - inversion Hl as [|? ? Hx Hl']; subst.
    rewrite (Qsum_map_ext _
               (fun k => (if (k =? x)%Z then 1 else 0)
                         + (if mem k l then 1 else 0))).
    + rewrite Qsum_map_plus, (Qsum_map_pick x (fun _ => 1)), IH.
      * unfold len. cbn [length]. rewrite Nat2Z.inj_succ. unfold Z.succ.
        rewrite inject_Z_plus. ring.
      * assumption.
      * intros k Hk. apply Hincl. now right.
      * assumption.
      * apply Hincl. now left.
    + intros k _. cbn [mem existsb]. fold (mem k l).
      destruct (Z.eqb_spec k x) as [->|_]; cbn [orb].
      * apply mem_false in Hx. rewrite Hx. ring.
      * destruct (mem k l); ring.
Qed.

(** The weights of column [c], summed over a duplicate-free list of rows
    that covers the nodes, give the degree of [c]. *)
Lemma edge_weight_column (ks : list Z) (c : Z) :
  NoDup ks -> incl (nodes g) ks ->
  Qsum (map (fun r => edge_weight g r c) ks) == inject_Z (degree g c).
Proof.
  intros Hks Hincl. destruct g_wf as (Hnd & Hnb & Hsym).
  rewrite (Qsum_map_ext _
             (fun r => (if mem r (neighbors g c) then 1 else 0)
                       + (if (r =? c)%Z
                          then (if mem r (neighbors g c) then 1 else 0)
                          else 0))).
  - rewrite Qsum_map_plus, Qsum_member_count.
    + unfold degree. rewrite inject_Z_plus.
      destruct (mem c (neighbors g c)) eqn:Hc.
      * rewrite (Qsum_map_pick c (fun r => if mem r (neighbors g c) then 1 else 0)).
        -- rewrite Hc. reflexivity.
        -- assumption.
        -- apply Hincl. apply mem_In in Hc. eapply neighbors_is_node. exact Hc.
      * rewrite Qsum_map_zero; [reflexivity|].
        intros k _. destruct (Z.eqb_spec k c) as [->|_]; [|reflexivity].
        now rewrite Hc.
    + apply Hnb.
    + assumption.
    + intros x Hx. apply Hincl. now apply (neighbor_is_node c x).
  - intros r _. unfold edge_weight.
    assert (mem c (neighbors g r) = mem r (neighbors g c)) as ->.
    { destruct (mem r (neighbors g c)) eqn:H.
      - apply mem_In. apply mem_In in H. now apply Hsym.
      - apply mem_false. apply mem_false in H. intros H'. apply H. now apply Hsym. }
    destruct (mem r (neighbors g c)); destruct (r =? c)%Z; ring.
Qed.

End RawEntries.

(** ** [normalize_adjacency]: when it returns and what it holds *)

Section Normalizer.

Import Nx.
Local Open Scope Q_scope.

Lemma coo_matrix_Ok (values : list Q) (row col : list Z) (shp : Z * Z) :
  length row = length values -> length col = length values ->
  (0 <= fst shp)%Z -> (0 <= snd shp)%Z ->
  Forall (fun t => in_bounds shp t = true) (combine (combine row col) values) ->
  coo_matrix values row col shp = Ok (mk_sp shp (combine (combine row col) values)).
Proof.
  intros Hr Hc H1 H2 Hb. unfold coo_matrix.
  rewrite Hr, Hc, !Nat.eqb_refl. cbn [andb negb].
  destruct (Z.ltb_spec (fst shp) 0) as [|_]; [lia|].
  destruct (Z.ltb_spec (snd shp) 0) as [|_]; [lia|]. cbn [orb].
  rewrite (proj2 (forallb_forall _ _)); [reflexivity|].
  now apply Forall_forall.
Qed.

Lemma raw_combine (E : list (node * node)) :
  combine (combine (map fst E ++ map snd E) (map snd E ++ map fst E))
          (map (fun _ => 1) E ++ map (fun _ => 1) E) =
  map (fun e => (fst e, snd e, 1)) E ++ map (fun e => (snd e, fst e, 1)) E.
Proof.
  rewrite combine_app_same by now rewrite !length_map.
  rewrite combine_app_same
    by now rewrite !length_combine, !length_map, Nat.min_id.
  now rewrite !combine_map_both.
Qed.

Lemma contiguous_of_range (g : Graph) :
  nodes g = range (length (nodes g)) -> contiguous g.
Proof.
  intros H z. rewrite H at 1. rewrite range_In. unfold len. reflexivity.
Qed.

Variable g : Graph.
Hypothesis g_wf : well_formed g.
Hypothesis g_contiguous : contiguous g.

Lemma raw_adjacency_returns :
  raw_adjacency g =
  Ok (mk_sp (node_count g, node_count g)
        (map (fun e => (fst e, snd e, 1)) (edges g)
         ++ map (fun e => (snd e, fst e, 1)) (edges g))).
Proof.
  unfold raw_adjacency. rewrite <- raw_combine.
  unfold len. rewrite range_length. fold (len (nodes g)).
  fold (node_count g).
  apply coo_matrix_Ok.
  - now rewrite !length_app, !length_map.
  - now rewrite !length_app, !length_map.
  - unfold node_count, len. cbn [fst]. lia.
  - unfold node_count, len. cbn [snd]. lia.
  - rewrite raw_combine. apply Forall_forall. intros t Ht.
    assert (forall a b, In (a, b) (edges g) ->
                        (0 <= a < node_count g)%Z /\
                      (0 <= b < node_count g)%Z) as Hrange.
    { intros a b Hab. split; apply g_contiguous.
      - eapply edges_from_fst. exact Hab.
      - eapply neighbor_is_node; [exact g_wf|].
        apply edges_neighbors; [exact g_wf|exact Hab]. }
    apply in_app_or in Ht.
    destruct Ht as [Ht|Ht]; apply in_map_iff in Ht;
      destruct Ht as [[a b] [<- Hab]]; destruct (Hrange a b Hab);
      unfold in_bounds, t_row, t_col; cbn [fst snd]; lia.
Qed.

Hypothesis g_degrees : forall v, In v (nodes g) -> (1 <= degree g v)%Z.

Lemma degrees_return :
  mapM (fun node => inverse_degree (degree g node)) (nodes g) =
  Ok (map (fun node => 1 / inject_Z (degree g node)) (nodes g)).
Proof.
  apply mapM_all_Ok. intros v Hv. unfold inverse_degree.
  specialize (g_degrees v Hv).
  destruct (Z.eqb_spec (degree g v) 0) as [H0|_]; [lia|reflexivity].
Qed.

Lemma degree_matrix_returns :
  coo_matrix (map (fun node => 1 / inject_Z (degree g node)) (nodes g))
             (range (length (nodes g))) (range (length (nodes g)))
           (node_count g, node_count g) =
  Ok (mk_sp (node_count g, node_count g)
        (combine (combine (range (length (nodes g))) (range (length (nodes g))))
                 (map (fun node => 1 / inject_Z (degree g node)) (nodes g)))).
Proof.
  apply coo_matrix_Ok.
  - now rewrite range_length, length_map.
  - now rewrite range_length, length_map.
  - unfold node_count, len. cbn [fst]. lia.
  - unfold node_count, len. cbn [snd]. lia.
  - apply Forall_forall. intros [[r c] v] Ht.
    apply in_combine_l in Ht. pose proof (in_combine_l _ _ _ _ Ht) as Hr.
    apply in_combine_r in Ht. apply range_In in Hr. apply range_In in Ht.
    unfold in_bounds, t_row, t_col, node_count, len. cbn [fst snd]. lia.
Qed.

(** With contiguous identifiers and no isolated node the normalizer
    returns the product of the raw matrix and the degree matrix. *)
Lemma normalize_adjacency_returns :
  normalize_adjacency g =
  Ok (mul (mk_sp (node_count g, node_count g)
             (map (fun e => (fst e, snd e, 1)) (edges g)
              ++ map (fun e => (snd e, fst e, 1)) (edges g)))
          (mk_sp (node_count g, node_count g)
             (combine (combine (range (length (nodes g))) (range (length (nodes g))))
                      (map (fun node => 1 / inject_Z (degree g node)) (nodes g))))).
Proof.
  unfold normalize_adjacency. rewrite degrees_return. cbn [bind].
  rewrite raw_adjacency_returns. cbn [bind shape].
  rewrite degree_matrix_returns. cbn [bind].
  unfold dot, ncols, nrows. cbn [shape fst snd]. now rewrite Z.eqb_refl.
Qed.

(** The raw column of a node sums to its degree. *)
Lemma raw_column_sum (raw : spmatrix) (c : Z) :
  raw_adjacency g = Ok raw ->
  column_sum raw c == inject_Z (degree g c).
Proof.
  intros Hraw. unfold column_sum.
  rewrite (Qsum_map_ext _ (fun r => edge_weight g r c))
    by (intros r _; now apply raw_adjacency_entry).
  apply edge_weight_column; [assumption|apply range_NoDup|].
  intros v Hv. apply range_In. unfold nrows.
  rewrite (raw_adjacency_shape g raw Hraw). cbn [fst].
  apply g_contiguous in Hv. unfold len in *. lia.
Qed.

End Normalizer.

Section Scaling.

Import Nx.
Local Open Scope Q_scope.

(** A diagonal matrix holds [f j] at (j, j) and nothing elsewhere. *)
Lemma entry_of_diagonal (f : Z -> Q) (ks : list Z) (i j : Z) :
  NoDup ks ->
  entry_of (map (fun k => (k, k, f k)) ks) i j ==
  (if (i =? j)%Z && mem j ks then f j else 0).
Proof.
  induction ks as [|x ks IH]; intros Hnd.
  - cbn. now rewrite andb_false_r.
  - inversion Hnd as [|? ? Hx Hks]; subst.
    cbn [map]. rewrite entry_of_cons, IH by assumption.
    unfold at_pos, t_row, t_col, t_val. cbn [fst snd mem existsb].
    fold (mem j ks). rewrite (Z.eqb_sym j x).
    destruct (Z.eqb_spec x i) as [->|Hxi]; destruct (Z.eqb_spec i j) as [->|Hij];
      cbn [andb orb].
    + apply mem_false in Hx. rewrite Hx. ring.
    + destruct (Z.eqb_spec i j) as [|_]; [contradiction|]. ring.
    + destruct (Z.eqb_spec x j) as [|_]; [contradiction|]. cbn [orb]. ring.
    + ring.
Qed.

Lemma diagonal_combine (f : Z -> Q) (ks : list Z) :
  combine (combine ks ks) (map f ks) = map (fun k => (k, k, f k)) ks.
Proof. induction ks as [|x ks IH]; cbn; [reflexivity|now f_equal]. Qed.

Variable g : Graph.
Hypothesis g_wf : well_formed g.
Hypothesis g_ordered : nodes g = range (length (nodes g)).
Hypothesis g_degrees : forall v, In v (nodes g) -> (1 <= degree g v)%Z.

(** When the nodes were inserted in ascending order of identifier, the
    normalizer scales column j of the raw matrix by 1/degree(j). *)
Lemma normalize_adjacency_scaled (A : spmatrix) (i j : Z) :
  normalize_adjacency g = Ok A ->
  entry A i j == edge_weight g i j / inject_Z (degree g j).
Proof.
  intros HA.
  pose proof (contiguous_of_range g g_ordered) as Hc.
  rewrite (normalize_adjacency_returns g g_wf Hc g_degrees) in HA.
  injection HA as <-.
  match goal with |- entry (mul ?R _) _ _ == _ => set (raw := R) end.
  assert (raw_adjacency g = Ok raw) as Hraw
    by (apply raw_adjacency_returns; assumption).
  rewrite entry_mul.
  2:{ apply bounded_cols. unfold raw_adjacency in Hraw.
      now apply coo_matrix_bounded in Hraw. }
  unfold entry at 2. cbn [triples].
  replace (map (fun node => 1 / inject_Z (degree g node)) (nodes g))
    with (map (fun node => 1 / inject_Z (degree g node))
              (range (length (nodes g))))
    by (now rewrite <- g_ordered).
  set (f := fun k => 1 / inject_Z (degree g k)).
  fold f. rewrite (diagonal_combine f).
  assert (forall k, entry_of
            (map (fun k => (k, k, f k)) (range (length (nodes g)))) k j ==
          (if (k =? j)%Z && mem j (range (length (nodes g))) then f j else 0))
    as HD by (intros k; apply entry_of_diagonal, range_NoDup).
  rewrite (Qsum_map_ext _
             (fun k => if (k =? j)%Z
                       then entry raw i k
                            * (if mem j (range (length (nodes g))) then f j else 0)
                       else 0)).
  2:{ intros k _. rewrite HD. destruct (k =? j)%Z; cbn [andb]; ring. }
  destruct (mem j (range (length (nodes g)))) eqn:Hj.
  - rewrite (Qsum_map_pick j
               (fun k => entry raw i k * f j)).
    + rewrite (raw_adjacency_entry g g_wf raw i j Hraw). unfold f.
      field. intros H0. apply mem_In in Hj. rewrite <- g_ordered in Hj.
      specialize (g_degrees j Hj).
      unfold Qeq in H0. cbn in H0. lia.
    + apply range_NoDup.
    + unfold ncols, raw. cbn [shape snd]. unfold node_count, len.
      rewrite Nat2Z.id.
      now apply mem_In.
  - rewrite Qsum_map_zero.
    + unfold edge_weight. apply mem_false in Hj.
      destruct (mem j (neighbors g i)) eqn:Hn; [|unfold Qdiv; ring].
      exfalso. apply Hj. rewrite <- g_ordered. apply mem_In in Hn.
      eapply neighbor_is_node; eassumption.
    + intros k _. destruct (k =? j)%Z; ring.
Qed.

End Scaling.

(** *** Scaling by position *)

Section PositionScaling.

Import Nx.
Local Open Scope Q_scope.

Lemma positional_combine (f : Z -> Q) (l : list Z) (s : nat) :
  combine (combine (map Z.of_nat (seq s (length l)))
                   (map Z.of_nat (seq s (length l))))
          (map f l) =
  map (fun k => (k, k, f (nth (Z.to_nat k - s) l 0%Z)))
      (map Z.of_nat (seq s (length l))).
Proof.
  revert s. induction l as [|x l IH]; intros s; [reflexivity|].
  cbn [length seq map combine]. f_equal.
  - rewrite Nat2Z.id, Nat.sub_diag. reflexivity.
  - rewrite IH. rewrite !map_map. apply map_ext_in. intros m Hm.
    apply in_seq in Hm. rewrite Nat2Z.id.
    replace (m - s)%nat with (S (m - S s)) by lia. reflexivity.
Qed.

Variable g : Graph.
Hypothesis g_wf : well_formed g.
Hypothesis g_contiguous : contiguous g.
Hypothesis g_degrees : forall v, In v (nodes g) -> (1 <= degree g v)%Z.

(** Whatever the insertion order, column j of the result is column j of
    the raw matrix divided by the degree of the node inserted j-th. *)
Lemma normalize_adjacency_scaled_by_position (A : spmatrix) (i j : Z) :
  normalize_adjacency g = Ok A ->
  (0 <= j < node_count g)%Z ->
  entry A i j ==
  edge_weight g i j / inject_Z (degree g (nth (Z.to_nat j) (nodes g) 0%Z)).
Proof.
  intros HA Hj.
  rewrite (normalize_adjacency_returns g g_wf g_contiguous g_degrees) in HA.
  injection HA as <-.
  match goal with |- entry (mul ?R _) _ _ == _ => set (raw := R) end.
  assert (raw_adjacency g = Ok raw) as Hraw
    by (apply raw_adjacency_returns; assumption).
  rewrite entry_mul.
  2:{ apply bounded_cols. unfold raw_adjacency in Hraw.
      now apply coo_matrix_bounded in Hraw. }
  unfold entry at 2. cbn [triples].
  set (f := fun node => 1 / inject_Z (degree g node)).
  set (f' := fun k => f (nth (Z.to_nat k - 0) (nodes g) 0%Z)).
  match goal with
  | |- context [combine (combine ?a ?b) ?c] =>
      replace (combine (combine a b) c)
        with (map (fun k => (k, k, f' k)) (range (length (nodes g))))
        by (symmetry; apply (positional_combine f (nodes g) 0))
  end.
  assert (forall k, entry_of
            (map (fun k => (k, k, f' k)) (range (length (nodes g)))) k j ==
          (if (k =? j)%Z && mem j (range (length (nodes g))) then f' j else 0))
    as HD by (intros k; apply entry_of_diagonal, range_NoDup).
  assert (mem j (range (length (nodes g))) = true) as Hmem.
  { apply mem_In, range_In. unfold node_count, len in Hj. lia. }
  rewrite (Qsum_map_ext _
             (fun k => if (k =? j)%Z then entry raw i k * f' j else 0)).
  2:{ intros k _. rewrite HD, Hmem. destruct (k =? j)%Z; cbn [andb]; ring. }
  rewrite (Qsum_map_pick j (fun k => entry raw i k * f' j)).
  - rewrite (raw_adjacency_entry g g_wf raw i j Hraw). unfold f', f.
    rewrite Nat.sub_0_r. field. intros H0.
    assert (In (nth (Z.to_nat j) (nodes g) 0%Z) (nodes g)) as Hin.
    { apply nth_In. unfold node_count, len in Hj. lia. }
    specialize (g_degrees _ Hin). unfold Qeq in H0. cbn in H0. lia.
  - apply range_NoDup.
  - unfold ncols, raw. cbn [shape snd]. unfold node_count, len.
    rewrite Nat2Z.id. now apply mem_In.
Qed.

End PositionScaling.

(** ** The adjacency normalizer: the claims *)

Lemma well_formed_add_node (g : Nx.Graph) (v : Nx.node) :
  Nx.well_formed g -> Nx.well_formed (Nx.add_node g v).
Proof.
  intros (Hn & Hnb & Hsym). repeat split.
  - now apply NoDup_nodes_add_node.
  - intros m. rewrite neighbors_add_node. apply Hnb.
  - intros a b. rewrite !neighbors_add_node. apply Hsym.
Qed.

Lemma with_isolated_node_well_formed : Nx.well_formed with_isolated_node.
Proof. apply well_formed_add_node, from_edgelist_well_formed. Qed.

Lemma with_isolated_node_contiguous : contiguous with_isolated_node.
Proof.
  intros z. change (Nx.nodes with_isolated_node) with [0; 1; 2].
  unfold len. cbn [In length]. lia.
Qed.

(** C2, as stated, fails on a self-loop: in the path 0-1 with a loop at 0
    every node has degree at least 1 (node 0 has degree 3), yet the entry
    at (0, 0) is 2/3 and not 1/degree(0) = 1/3. *)
Lemma normalize_adjacency_unit_weights_refuted :
  ~ (forall g : Nx.Graph,
        Nx.well_formed g ->
        (forall v, In v (Nx.nodes g) -> 1 <= Nx.degree g v) ->
        exists A, normalize_adjacency g = Ok A /\ unit_column_normalized g A).
Proof.
  intros H.
  destruct (H (Nx.from_edgelist looped_path)) as [A [HA Hunit]].
  - apply from_edgelist_well_formed.
  - intros v [<-|[<-|[]]]; vm_compute; intros Hc; discriminate Hc.
  - vm_compute in HA. injection HA as <-.
    specialize (Hunit 0 0 (or_introl eq_refl) (or_introl eq_refl)).
    vm_compute in Hunit. discriminate Hunit.
Qed.

(** The same entry, computed: 2/3 at (0, 0), where the degree is 3. *)
Lemma looped_path_entry :
  exists A, normalize_adjacency (Nx.from_edgelist looped_path) = Ok A /\
            Qred (entry A 0 0) = (2 # 3)%Q /\
            Nx.degree (Nx.from_edgelist looped_path) 0 = 3.
Proof. eexists. split; [reflexivity|]. split; reflexivity. Qed.

(** When node 1 is met before node 0, the inverse degrees are laid on the
    diagonal in insertion order: column 0 is scaled by 1/degree(1) = 1/2
    although degree(0) = 1, and column 1 by 1/degree(2) = 1. *)
Lemma unordered_path_entries :
  exists A, normalize_adjacency (Nx.from_edgelist unordered_path) = Ok A /\
            Nx.nodes (Nx.from_edgelist unordered_path) = [1; 2; 0] /\
            Nx.degree (Nx.from_edgelist unordered_path) 0 = 1 /\
            Nx.degree (Nx.from_edgelist unordered_path) 1 = 2 /\
            Qred (entry A 1 0) = (1 # 2)%Q /\
            Qred (entry A 0 1) = 1%Q.
Proof. eexists. split; [reflexivity|]. repeat split; reflexivity. Qed.

(** C2 (amended). For every graph whose nodes 0..n-1 were inserted in
    ascending order and in which every node has degree at least 1,
    [normalize_adjacency] returns the matrix A_raw . D^-1: the entry at
    (i, j) is the raw weight of (i, j) divided by degree(j), where the raw
    weight is 1 for an edge between two different nodes, 2 for a
    self-loop and 0 where there is no edge.  Columns are scaled, not
    rows. *)
Theorem normalize_adjacency_column_scaling (g : Nx.Graph) :
  Nx.well_formed g ->
  Nx.nodes g = range (length (Nx.nodes g)) ->
  (forall v, In v (Nx.nodes g) -> 1 <= Nx.degree g v) ->
  exists A, normalize_adjacency g = Ok A /\
    forall i j,
      (entry A i j == edge_weight g i j / inject_Z (Nx.degree g j))%Q.
Proof.
  intros Hwf Hord Hdeg.
  pose proof (normalize_adjacency_returns g Hwf (contiguous_of_range g Hord) Hdeg)
    as HA.
  eexists. split; [exact HA|].
  intros i j. now apply normalize_adjacency_scaled.
Qed.

Lemma normalize_adjacency_column_scaling_witness :
  exists A, normalize_adjacency (Nx.from_edgelist looped_path) = Ok A /\
    forall i j,
      (entry A i j ==
       edge_weight (Nx.from_edgelist looped_path) i j
       / inject_Z (Nx.degree (Nx.from_edgelist looped_path) j))%Q.
Proof.
  apply (normalize_adjacency_column_scaling (Nx.from_edgelist looped_path)).
  - apply from_edgelist_well_formed.
  - reflexivity.
  - intros v [<-|[<-|[]]]; vm_compute; intros Hc; discriminate Hc.
Defined.

(** C3, as stated, fails on a graph with an isolated node: the nodes
    0, 1, 2 are zero-indexed and contiguous, but the normalizer raises and
    produces no matrix. *)
Lemma normalize_adjacency_shape_refuted :
  ~ (forall g : Nx.Graph,
        Nx.well_formed g -> contiguous g ->
        exists A, normalize_adjacency g = Ok A /\
                  shape A = (len (Nx.nodes g), len (Nx.nodes g))).
Proof.
  intros H.
  destruct (H with_isolated_node with_isolated_node_well_formed
              with_isolated_node_contiguous) as [A [HA _]].
  vm_compute in HA. discriminate HA.
Qed.

(** C3 (amended). For every graph with n nodes whose identifiers are
    zero-indexed and contiguous and in which every node has degree at least
    1, the normalizer produces an n x n matrix, and for every node i the
    entries of column i of the raw (pre-normalization) adjacency matrix sum
    to the degree of i. *)
Theorem normalize_adjacency_shape_and_column_sums (g : Nx.Graph) :
  Nx.well_formed g ->
  contiguous g ->
  (forall v, In v (Nx.nodes g) -> 1 <= Nx.degree g v) ->
  exists raw A,
    raw_adjacency g = Ok raw /\
    normalize_adjacency g = Ok A /\
    shape raw = (len (Nx.nodes g), len (Nx.nodes g)) /\
    shape A = (len (Nx.nodes g), len (Nx.nodes g)) /\
    forall i, In i (Nx.nodes g) ->
      (column_sum raw i == inject_Z (Nx.degree g i))%Q.
Proof.
  intros Hwf Hc Hdeg.
  pose proof (raw_adjacency_returns g Hwf Hc) as Hraw.
  pose proof (normalize_adjacency_returns g Hwf Hc Hdeg) as HA.
  eexists. eexists. split; [exact Hraw|]. split; [exact HA|].
  split; [reflexivity|]. split; [reflexivity|].
  intros i _. now apply raw_column_sum.
Qed.

Lemma normalize_adjacency_shape_and_column_sums_witness :
  exists raw A,
    raw_adjacency (Nx.from_edgelist unordered_path) = Ok raw /\
    normalize_adjacency (Nx.from_edgelist unordered_path) = Ok A /\
    shape raw = (3, 3) /\
    shape A = (3, 3) /\
    forall i, In i [1; 2; 0] ->
      (column_sum raw i
       == inject_Z (Nx.degree (Nx.from_edgelist unordered_path) i))%Q.
Proof.
  apply (normalize_adjacency_shape_and_column_sums (Nx.from_edgelist unordered_path)).
  - apply from_edgelist_well_formed.
  - intros z. change (Nx.nodes (Nx.from_edgelist unordered_path)) with [1; 2; 0].
    unfold len. cbn [In length]. lia.
  - intros v [<-|[<-|[<-|[]]]]; vm_compute; intros Hc; discriminate Hc.
Defined.

(** C6. For every graph that contains a node of degree 0, the normalizer
    raises [ZeroDivisionError]; it returns no matrix at all. *)
Theorem normalize_adjacency_isolated_node (g : Nx.Graph) :
  (exists v, In v (Nx.nodes g) /\ Nx.degree g v = 0) ->
  normalize_adjacency g = Raise ZeroDivisionError.
Proof.
  intros [v [Hv Hd]]. unfold normalize_adjacency.
  rewrite (mapM_Raise _ _ ZeroDivisionError); [reflexivity| |].
  - intros x _. unfold inverse_degree.
    destruct (Nx.degree g x =? 0); [now left|right; eauto].
  - exists v. split; [assumption|]. unfold inverse_degree. now rewrite Hd.
Qed.

Lemma normalize_adjacency_isolated_node_witness :
  normalize_adjacency with_isolated_node = Raise ZeroDivisionError.
Proof.
  apply (normalize_adjacency_isolated_node with_isolated_node).
  exists 2. split; [vm_compute; tauto|reflexivity].
Defined.

(** ** [read_graph]: the claims *)

Lemma linked_In (rows : list (Z * Z)) (i j : Z) :
  linked rows i j = true <-> In (i, j) rows \/ In (j, i) rows.
Proof.
  unfold linked. rewrite existsb_exists. split.
  - intros [[a b] [Hin H]]. cbn [fst snd] in H.
    apply orb_true_iff in H. destruct H as [H|H];
      apply andb_true_iff in H; destruct H as [H1 H2];
      apply Z.eqb_eq in H1; apply Z.eqb_eq in H2; subst; tauto.
  - intros [H|H]; eexists; (split; [exact H|]); cbn [fst snd];
      rewrite !Z.eqb_refl; cbn; now rewrite ?orb_true_r.
Qed.

Lemma edge_weight_from_edgelist (rows : list (Z * Z)) (i j : Z) :
  edge_weight (Nx.from_edgelist rows) i j =
  if linked rows i j then (if i =? j then 2 else 1)%Q else 0%Q.
Proof.
  unfold edge_weight.
  assert (Nx.mem j (Nx.neighbors (Nx.from_edgelist rows) i) = linked rows i j) as ->;
    [|reflexivity].
  destruct (linked rows i j) eqn:Hl.
  - apply mem_In, from_edgelist_neighbors, linked_In. exact Hl.
  - apply mem_false. intros H. apply from_edgelist_neighbors, linked_In in H.
    congruence.
Qed.

(** C10. For every edge list, the graph that [read_graph] builds is an
    undirected graph without parallel edges: however often, and in
    whichever direction, the rows list the edge {i, j}, it contributes
    weight 1 at (i, j) and weight 1 at (j, i) of the raw adjacency matrix.
    So the entry at (i, j) is 1 when some row joins two different nodes i
    and j, 2 on the diagonal position of a self-loop (where the two
    contributions meet), and 0 when no row joins i and j. *)
Theorem raw_adjacency_undirected_weights (rows : list (Z * Z)) (raw : spmatrix) :
  raw_adjacency (Nx.from_edgelist rows) = Ok raw ->
  Nx.well_formed (Nx.from_edgelist rows) /\
  forall i j,
    (entry raw i j ==
     if linked rows i j then (if i =? j then 2 else 1) else 0)%Q.
Proof.
  intros Hraw. split; [apply from_edgelist_well_formed|].
  intros i j. rewrite <- edge_weight_from_edgelist.
  apply raw_adjacency_entry; [apply from_edgelist_well_formed|exact Hraw].
Qed.

Lemma raw_adjacency_undirected_weights_witness :
  exists raw,
    raw_adjacency (Nx.from_edgelist repeated_rows) = Ok raw /\
    Nx.well_formed (Nx.from_edgelist repeated_rows) /\
    forall i j,
      (entry raw i j ==
       if linked repeated_rows i j then (if i =? j then 2 else 1) else 0)%Q.
Proof.
  eexists. split; [reflexivity|].
  apply (raw_adjacency_undirected_weights repeated_rows). reflexivity.
Defined.

(** The repeated rows, computed: one unit in each direction of 0-1 and of
    1-2, nothing else. *)
Example repeated_rows_raw :
  option_map to_dense (returned (raw_adjacency (Nx.from_edgelist repeated_rows))) =
  Some [[0; 1; 0]; [1; 0; 1]; [0; 1; 0]]%Q.
Proof. vm_compute. reflexivity. Qed.


(** C7, as stated, fails: order 0 is not rejected, a matrix comes back. *)
Lemma read_graph_order_rejection_refuted :
  ~ (forall (rows : list (Z * Z)) (order : Z),
        order < 1 -> raises (read_graph rows order)).
Proof.
  intros H. destruct (H cycle4 0 ltac:(lia)) as [e He].
  vm_compute in He. discriminate He.
Qed.

(** C7 (amended). For every configuration with order < 1 nothing is
    rejected: [parameter_parser] stores whatever integer follows [--order],
    and [read_graph] takes the branch of order 1, returning whatever
    [normalize_adjacency] returns - the normalized adjacency matrix itself
    when that succeeds. *)
Theorem read_graph_order_below_one (rows : list (Z * Z)) (order_ : Z) :
  order_ < 1 ->
  read_graph rows order_ = normalize_adjacency (Nx.from_edgelist rows) /\
  read_graph rows order_ = read_graph rows 1 /\
  forall (int_of_str : string -> option Z) (float_of_str : string -> option Q)
         (s : string),
    int_of_str s = Some order_ ->
    exists ns,
      Args.parameter_parser int_of_str float_of_str [("--order"%string, Some s)]
        = Args.Parsed ns /\
      Args.order ns = order_.
Proof.
  intros Hlt.
  assert (forall k, k <= 1 ->
            read_graph rows k = normalize_adjacency (Nx.from_edgelist rows)) as Hk.
  { intros k Hle. unfold read_graph, target_matrix.
    destruct (Z.gtb_spec k 1) as [|_]; [lia|].
    now destruct (normalize_adjacency (Nx.from_edgelist rows)). }
  split; [apply Hk; lia|]. split; [rewrite !Hk by lia; reflexivity|].
  intros iof fof s Hs. cbn. rewrite Hs. eexists. split; reflexivity.
Qed.

Lemma read_graph_order_below_one_witness :
  read_graph cycle4 (-3) = normalize_adjacency (Nx.from_edgelist cycle4) /\
  read_graph cycle4 (-3) = read_graph cycle4 1 /\
  forall (int_of_str : string -> option Z) (float_of_str : string -> option Q)
         (s : string),
    int_of_str s = Some (-3) ->
    exists ns,
      Args.parameter_parser int_of_str float_of_str [("--order"%string, Some s)]
        = Args.Parsed ns /\
      Args.order ns = -3.
Proof. apply (read_graph_order_below_one cycle4 (-3)). lia. Defined.

(** With the decimal reading of option values, [--order -3] is accepted. *)
Example order_minus_three_parsed :
  option_map Args.order
    (match Args.parameter_parser Decimal.int_of_str (fun _ => None)
             [("--order"%string, Some "-3"%string)] with
     | Args.Parsed ns => Some ns
     | Args.SystemExit => None
     end) = Some (-3).
Proof. reflexivity. Qed.

(** ** [parameter_parser]: the defaults *)

(** C9. When no option is supplied, [parameter_parser] returns the
    configuration with dimensions = 32, order = 2, iterations = 200,
    lambd = 1000.0, alpha = 1e-6, features = "sparse" and
    lower-control = 1e-15 (and the three default paths). *)
Theorem parameter_parser_defaults
        (int_of_str : string -> option Z) (float_of_str : string -> option Q) :
  exists ns,
    Args.parameter_parser int_of_str float_of_str [] = Args.Parsed ns /\
    Args.dimensions ns = 32 /\
    Args.order ns = 2 /\
    Args.iterations ns = 200 /\
    Args.lambd ns = 1000%Q /\
    Args.alpha ns = (1 # 1000000)%Q /\
    Args.features ns = Some "sparse"%string /\
    Args.lower_control ns = (1 # 1000000000000000)%Q /\
    Args.edge_path ns = Some "./input/chameleon_edges.csv"%string /\
    Args.feature_path ns = Some "./input/chameleon_features.json"%string /\
    Args.output_path ns = Some "./output/chameleon_tadw.csv"%string.
Proof.
  exists Args.defaults. repeat split; reflexivity.
Qed.

(** ** [read_features] *)

Section DenseFeatures.

Context {V : Type}.

Lemma nth_error_tl (r : list V) (j : nat) :
  nth_error (tl r) j = nth_error r (S j).
Proof. destruct r; [now destruct j|reflexivity]. Qed.

Lemma item_drop_first_column (a : Np.ndarray V) (i j : nat) :
  Np.item (Np.drop_first_column a) i j = Np.item a i (S j).
Proof.
  unfold Np.item, Np.drop_first_column. cbn [Np.nd_rows].
  rewrite nth_error_map. destruct (nth_error (Np.nd_rows a) i); cbn.
  - apply nth_error_tl.
  - reflexivity.
Qed.

Lemma rectangular_drop_first_column (a : Np.ndarray V) :
  Np.rectangular a -> Np.rectangular (Np.drop_first_column a).
Proof.
  intros [Hr Hc]. split; cbn [Np.drop_first_column Np.nd_rows Np.nd_shape fst snd].
  - now rewrite length_map.
  - apply Forall_map. eapply Forall_impl; [|exact Hc].
    intros r Hlen. cbn beta in *. rewrite <- Hlen. now destruct r.
Qed.

Lemma nth_error_heads (rows : list (list V)) (i : nat) :
  Forall (fun r => r <> []) rows ->
  nth_error (Np.heads rows) i =
  match nth_error rows i with
  | Some r => nth_error r 0
  | None => None
  end.
Proof.
  intros H. revert i. induction H as [|r rows Hr _ IH]; intros i.
  - now destruct i.
  - destruct r as [|x r]; [contradiction|]. cbn [Np.heads flat_map app].
    destruct i as [|i]; [reflexivity|]. cbn [nth_error]. apply IH.
Qed.

Lemma length_heads (rows : list (list V)) :
  Forall (fun r => r <> []) rows -> length (Np.heads rows) = length rows.
Proof.
  induction 1 as [|r rows Hr _ IH]; [reflexivity|].
  destruct r as [|x r]; [contradiction|]. cbn. now f_equal.
Qed.

Lemma Forall_length_tl (c : nat) (rows : list (list V)) :
  Forall (fun r => length r = S c) rows ->
  Forall (fun r => length r = c) (map (@tl V) rows).
Proof.
  intros H. apply Forall_map. eapply Forall_impl; [|exact H].
  intros [|x r] Hlen; [discriminate|]. cbn in *. lia.
Qed.

Lemma Forall_length_nonempty (c : nat) (rows : list (list V)) :
  Forall (fun r => length r = S c) rows -> Forall (fun r => r <> []) rows.
Proof.
  apply Forall_impl. intros [|x r] Hlen; [discriminate|congruence].
Qed.

(** Column j of the rows, read at position i, is row i read at position j. *)
Lemma nth_error_columns (c : nat) (rows : list (list V)) (j i : nat) :
  Forall (fun r => length r = c) rows ->
  match nth_error (Np.columns c rows) j with
  | Some col => nth_error col i
  | None => None
  end =
  match nth_error rows i with
  | Some r => nth_error r j
  | None => None
  end.
Proof.
  revert rows j. induction c as [|c IH]; intros rows j H.
  - cbn [Np.columns]. replace (nth_error [] j) with (@None (list V)) by now destruct j.
    destruct (nth_error rows i) as [r|] eqn:Hr; [|reflexivity].
    apply nth_error_In in Hr. rewrite Forall_forall in H.
    specialize (H r Hr). destruct r; [now destruct j|discriminate].
  - cbn [Np.columns]. destruct j as [|j]; cbn [nth_error].
    + apply nth_error_heads. eapply Forall_length_nonempty. exact H.
    + rewrite (IH (map (@tl V) rows) j (Forall_length_tl c rows H)).
      rewrite nth_error_map. destruct (nth_error rows i); cbn; [|reflexivity].
      apply nth_error_tl.
Qed.

Lemma item_transpose (a : Np.ndarray V) (j i : nat) :
  Np.rectangular a -> Np.item (Np.transpose a) j i = Np.item a i j.
Proof.
  intros [_ Hc]. unfold Np.item, Np.transpose. cbn [Np.nd_rows].
  now apply nth_error_columns.
Qed.

Lemma columns_rectangular (c : nat) (rows : list (list V)) :
  Forall (fun r => length r = c) rows ->
  length (Np.columns c rows) = c /\
  Forall (fun col => length col = length rows) (Np.columns c rows).
Proof.
  revert rows. induction c as [|c IH]; intros rows H; cbn [Np.columns].
  - split; constructor.
  - destruct (IH _ (Forall_length_tl c rows H)) as [Hl Hf]. split.
    + cbn. now f_equal.
    + constructor.
      * apply length_heads. eapply Forall_length_nonempty. exact H.
      * now rewrite length_map in Hf.
Qed.

Lemma rectangular_transpose (a : Np.ndarray V) :
  Np.rectangular a -> Np.rectangular (Np.transpose a).
Proof.
  intros [Hr Hc]. destruct (columns_rectangular _ _ Hc) as [Hl Hf].
  split; cbn [Np.transpose Np.nd_rows Np.nd_shape fst snd]; [assumption|].
  now rewrite <- Hr.
Qed.

End DenseFeatures.

(** C5. For every feature table (rows by columns, the node identifier in
    column 0), [read_features] drops the first column and transposes the
    rest: the result has one row per feature and one column per node, and
    the cell at (f, n) is the cell of table row n at column f + 1, so the
    columns follow the row order of the file. *)
Theorem read_features_transposed {V : Type} (a : Np.ndarray V) :
  Np.rectangular a ->
  Np.nd_shape (read_features a)
    = (Nat.pred (snd (Np.nd_shape a)), fst (Np.nd_shape a)) /\
  Np.rectangular (read_features a) /\
  forall f n, Np.item (read_features a) f n = Np.item a n (S f).
Proof.
  intros Hrect. unfold read_features. split; [reflexivity|]. split.
  - now apply rectangular_transpose, rectangular_drop_first_column.
  - intros f n. rewrite item_transpose
      by now apply rectangular_drop_first_column.
    apply item_drop_first_column.
Qed.

Lemma read_features_transposed_witness :
  Np.nd_shape (read_features small_table) = (3%nat, 2%nat) /\
  Np.rectangular (read_features small_table) /\
  forall f n, Np.item (read_features small_table) f n = Np.item small_table n (S f).
Proof.
  apply (read_features_transposed small_table).
  split; [reflexivity|]. repeat constructor.
Defined.

Example read_features_small_table :
  Np.nd_rows (read_features small_table) = [[1; 4]; [2; 5]; [3; 6]].
Proof. reflexivity. Qed.

(** ** [read_sparse_features] *)

Lemma mapM_app {A B : Type} (f : A -> result B) (xs ys : list A)
      (xs' ys' : list B) :
  mapM f xs = Ok xs' -> mapM f ys = Ok ys' -> mapM f (xs ++ ys) = Ok (xs' ++ ys').
Proof.
  revert xs'. induction xs as [|x xs IH]; intros xs' Hx Hy; cbn in *.
  - injection Hx as <-. exact Hy.
  - destruct (f x) as [y|e]; [cbn in *|discriminate].
    destruct (mapM f xs) as [zs|e]; [cbn in *|discriminate].
    injection Hx as <-. now rewrite (IH zs eq_refl Hy).
Qed.

Lemma raises_bind {A B : Type} (r : result A) (k : A -> result B) :
  (forall a, r = Ok a -> raises (k a)) -> raises (bind r k).
Proof.
  intros H. destruct r as [a|e]; cbn.
  - now apply H.
  - now exists e.
Qed.

Lemma mapM_raises {A B : Type} (f : A -> result B) (xs : list A) :
  (exists x, In x xs /\ raises (f x)) -> raises (mapM f xs).
Proof.
  induction xs as [|x xs IH]; intros [x0 [Hin Hx0]]; [contradiction|].
  cbn [mapM]. apply raises_bind. intros y Hy. apply raises_bind. intros ys Hys.
  destruct Hin as [->|Hin].
  - destruct Hx0 as [e He]. congruence.
  - assert (raises (mapM f xs)) as [e He] by (apply IH; eauto). congruence.
Qed.

Lemma fold_left_max_spec (xs : list Z) (x : Z) :
  is_max (fold_left Z.max xs x) (x :: xs).
Proof.
  revert x. induction xs as [|y xs IH]; intros x.
  - cbn. split; [now left|]. repeat constructor. lia.
  - cbn [fold_left]. destruct (IH (Z.max x y)) as [Hin Hall]. split.
    + destruct Hin as [Heq|Hin].
      * rewrite <- Heq. destruct (Z.max_spec x y) as [[_ ->]|[_ ->]]; cbn; tauto.
      * right. now right.
    + inversion Hall as [|? ? Hm Hxs]; subst.
      constructor; [lia|]. constructor; [lia|assumption].
Qed.

Lemma py_max_spec (xs : list Z) (m : Z) : py_max xs = Ok m -> is_max m xs.
Proof.
  destruct xs as [|x xs]; [discriminate|]. cbn. intros H. injection H as <-.
  apply fold_left_max_spec.
Qed.

Lemma py_max_returns (xs : list Z) : xs <> [] -> exists m, py_max xs = Ok m.
Proof. destruct xs; [contradiction|]. intros _. eexists. reflexivity. Qed.

Section SparseFeatures.

Local Open Scope Q_scope.

Variable int_of_str : string -> option Z.

(** The indicator triples hold 1 exactly at the listed positions. *)
Lemma entry_of_features_of_node (n0 : Z) (fs : list Z) (f n : Z) :
  NoDup fs ->
  entry_of (map (fun f' => (f', n0, 1)) fs) f n ==
  (if (n0 =? n)%Z && Nx.mem f fs then 1 else 0).
Proof.
  induction fs as [|x fs IH]; intros Hnd.
  - cbn. now rewrite andb_false_r.
  - inversion Hnd as [|? ? Hx Hfs]; subst.
    cbn [map]. rewrite entry_of_cons, IH by assumption.
    unfold at_pos, t_row, t_col, t_val. cbn [fst snd Nx.mem existsb].
    fold (Nx.mem f fs). rewrite (Z.eqb_sym f x).
    destruct (Z.eqb_spec x f) as [->|_]; destruct (n0 =? n)%Z; cbn [andb orb];
      try ring.
    apply mem_false in Hx. rewrite Hx. ring.
Qed.

Lemma entry_of_other_node (n0 : Z) (fs : list Z) (f n : Z) :
  n0 <> n -> entry_of (map (fun f' => (f', n0, 1)) fs) f n == 0.
Proof.
  intros Hne. induction fs as [|x fs IH]; [reflexivity|].
  cbn [map]. rewrite entry_of_cons, IH. unfold at_pos, t_row, t_col, t_val.
  cbn [fst snd]. destruct (Z.eqb_spec n0 n) as [|_]; [contradiction|].
  rewrite andb_false_r. ring.
Qed.

Lemma entry_of_indicator_absent (decoded : list (Z * list Z)) (f n : Z) :
  ~ In n (map fst decoded) -> entry_of (indicator_triples decoded) f n == 0.
Proof.
  induction decoded as [|[n0 fs] decoded IH]; intros Hn; [reflexivity|].
  cbn [indicator_triples flat_map fst snd]. fold (indicator_triples decoded).
  rewrite entry_of_app, IH by (intros H; apply Hn; now right).
  rewrite entry_of_other_node by (intros ->; apply Hn; now left).
  ring.
Qed.

Lemma listed_absent (decoded : list (Z * list Z)) (f n : Z) :
  ~ In n (map fst decoded) -> listed decoded f n = false.
Proof.
  induction decoded as [|[n0 fs] decoded IH]; intros Hn; [reflexivity|].
  cbn [listed existsb fst snd]. fold (listed decoded f n).
  rewrite IH by (intros H; apply Hn; now right).
  destruct (Z.eqb_spec n0 n) as [->|_]; [|reflexivity].
  exfalso. apply Hn. now left.
Qed.

Lemma entry_of_indicator (decoded : list (Z * list Z)) (f n : Z) :
  NoDup (map fst decoded) ->
  Forall (fun p => NoDup (snd p)) decoded ->
  entry_of (indicator_triples decoded) f n ==
  (if listed decoded f n then 1 else 0).
Proof.
  induction decoded as [|[n0 fs] decoded IH]; intros Hk Hf; [reflexivity|].
  cbn [map fst] in Hk. inversion Hk as [|? ? Hn0 Hk']; subst.
  inversion Hf as [|? ? Hfs Hf']; subst. cbn [snd] in Hfs.
  cbn [indicator_triples flat_map fst snd listed existsb].
  fold (indicator_triples decoded). fold (listed decoded f n).
  rewrite entry_of_app, entry_of_features_of_node by assumption.
  destruct (Z.eqb_spec n0 n) as [->|Hne]; cbn [andb orb].
  - rewrite entry_of_indicator_absent, listed_absent by assumption.
    rewrite orb_false_r. destruct (Nx.mem f fs); ring.
  - rewrite IH by assumption. ring.
Qed.

End SparseFeatures.

Section SparseLoader.

Variable int_of_str : string -> option Z.

Local Abbreviation wf := (well_formed_features int_of_str).
Local Abbreviation decodes :=
  (Forall2 (fun (kv : string * list json) (p : Z * list Z) =>
              int_of_str (fst kv) = Some (fst p) /\ snd kv = map JInt (snd p))).

Lemma py_max_top_or_zero (fs : list Z) : py_max (fs ++ [0]) = Ok (top_or_zero fs).
Proof. unfold top_or_zero. now destruct fs. Qed.

Lemma mapM_py_int_JInt (fs : list Z) :
  mapM (py_int int_of_str) (map JInt fs) = Ok fs.
Proof.
  induction fs as [|f fs IH]; [reflexivity|]. cbn. now rewrite IH.
Qed.

Lemma mapM_int_str_const (k : string) (z : Z) (A B : Type)
      (l : list A) (l' : list B) :
  int_of_str k = Some z -> length l = length l' ->
  mapM (int_str int_of_str) (map (fun _ => k) l) = Ok (map (fun _ => z) l').
Proof.
  intros Hk. revert l'. induction l as [|a l IH]; intros [|b l'] Hlen;
    try discriminate; [reflexivity|].
  cbn. unfold int_str at 1. rewrite Hk. cbn.
  rewrite (IH l') by (now inversion Hlen). reflexivity.
Qed.

Lemma decoded_keys_per_feature features decoded :
  decodes features decoded ->
  mapM (int_str int_of_str)
       (flat_map (fun kv => map (fun _ => fst kv) (snd kv)) features) =
  Ok (flat_map (fun p => map (fun _ => fst p) (snd p)) decoded).
Proof.
  induction 1 as [|kv p features decoded [Hk Hv] _ IH]; [reflexivity|].
  cbn [flat_map]. apply mapM_app; [|exact IH].
  apply mapM_int_str_const; [exact Hk|]. rewrite Hv. apply length_map.
Qed.

Lemma decoded_keys features decoded :
  decodes features decoded ->
  mapM (fun kv => int_str int_of_str (fst kv)) features = Ok (map fst decoded).
Proof.
  induction 1 as [|kv p features decoded [Hk Hv] _ IH]; [reflexivity|].
  cbn. unfold int_str at 1. rewrite Hk. cbn. now rewrite IH.
Qed.

Lemma decoded_lists features decoded :
  decodes features decoded ->
  mapM (fun kv => mapM (py_int int_of_str) (snd kv)) features
  = Ok (map snd decoded).
Proof.
  induction 1 as [|kv p features decoded [Hk Hv] _ IH]; [reflexivity|].
  cbn [mapM map]. rewrite Hv, mapM_py_int_JInt. cbn [bind]. now rewrite IH.
Qed.

Lemma decoded_indices features decoded :
  decodes features decoded ->
  mapM (py_int int_of_str) (flat_map (fun kv => snd kv) features)
  = Ok (flat_map snd decoded).
Proof.
  induction 1 as [|kv p features decoded [Hk Hv] _ IH]; [reflexivity|].
  cbn [flat_map]. apply mapM_app; [|exact IH].
  rewrite Hv. apply mapM_py_int_JInt.
Qed.

Lemma decoded_length features decoded :
  decodes features decoded ->
  length (flat_map (fun kv => snd kv) features) = length (flat_map snd decoded).
Proof.
  intros H. symmetry. eapply mapM_Ok_length. apply decoded_indices. exact H.
Qed.

Lemma indicator_combine (decoded : list (Z * list Z)) :
  combine (combine (flat_map snd decoded)
                   (flat_map (fun p => map (fun _ => fst p) (snd p)) decoded))
          (repeat 1%Q (length (flat_map snd decoded)))
  = indicator_triples decoded.
Proof.
  induction decoded as [|[n fs] decoded IH]; [reflexivity|].
  cbn [flat_map fst snd indicator_triples].
  fold (indicator_triples decoded).
  rewrite length_app, repeat_app.
  rewrite combine_app_same by now rewrite length_map.
  rewrite combine_app_same
    by now rewrite length_combine, length_map, Nat.min_id, repeat_length.
  rewrite IH. f_equal.
  clear. induction fs as [|f fs IH]; [reflexivity|]. cbn. now f_equal.
Qed.

Lemma tops_max (decoded : list (Z * list Z)) (m : Z) :
  decoded <> [] ->
  is_max m (map top_or_zero (map snd decoded)) ->
  is_max m (0 :: flat_map snd decoded).
Proof.
  intros Hne [Hin Hall].
  assert (forall fs, is_max (top_or_zero fs) (fs ++ [0])) as Htop.
  { intros fs. apply py_max_spec. apply py_max_top_or_zero. }
  rewrite Forall_forall in Hall. split.
  - apply in_map_iff in Hin. destruct Hin as [fs [<- Hfs]].
    destruct (Htop fs) as [Hin _]. apply in_app_or in Hin.
    destruct Hin as [Hin|[<-|[]]]; [right|now left].
    apply in_map_iff in Hfs. destruct Hfs as [p [<- Hp]].
    apply in_flat_map. eauto.
  - assert (forall fs, In fs (map snd decoded) ->
                       0 <= m /\ Forall (fun x => x <= m) fs) as Hb.
    { intros fs Hfs. specialize (Hall (top_or_zero fs) (in_map top_or_zero _ _ Hfs)).
      destruct (Htop fs) as [_ Hle]. apply Forall_app in Hle.
      destruct Hle as [Hle H0]. inversion H0; subst. split; [lia|].
      eapply Forall_impl; [|exact Hle]. cbv beta. intros; lia. }
    constructor.
    + destruct decoded as [|p decoded]; [contradiction|].
      apply (Hb (snd p)). now left.
    + apply Forall_forall. intros x Hx. apply in_flat_map in Hx.
      destruct Hx as [p [Hp Hx]].
      destruct (Hb (snd p) (in_map snd _ _ Hp)) as [_ Hle].
      rewrite Forall_forall in Hle. now apply Hle.
Qed.

(** What the loader returns on a well-formed mapping. *)
Lemma read_sparse_features_returns features decoded :
  wf features decoded ->
  exists top_node top_feature,
    is_max top_node (map fst decoded) /\
    is_max top_feature (0 :: flat_map snd decoded) /\
    read_sparse_features int_of_str features =
    Ok (mk_sp (top_feature + 1, top_node + 1) (indicator_triples decoded)).
Proof.
  intros (Hne & Hdec & Hkeys & Hall).
  destruct (py_max_returns (map fst decoded)) as [tn Htn].
  { destruct decoded; [contradiction|discriminate]. }
  destruct (py_max_returns (map top_or_zero (map snd decoded))) as [tf Htf].
  { destruct decoded; [contradiction|discriminate]. }
  pose proof (py_max_spec _ _ Htn) as Hmaxn.
  pose proof (tops_max decoded tf Hne (py_max_spec _ _ Htf)) as Hmaxf.
  exists tn, tf. split; [assumption|]. split; [assumption|].
  unfold read_sparse_features.
  rewrite (decoded_keys_per_feature _ _ Hdec). cbn [bind].
  rewrite (decoded_keys _ _ Hdec). cbn [bind].
  rewrite Htn. cbn [bind].
  rewrite (decoded_lists _ _ Hdec). cbn [bind].
  rewrite (mapM_all_Ok _ top_or_zero) by (intros fs _; apply py_max_top_or_zero). cbn [bind].
  rewrite Htf. cbn [bind].
  rewrite (decoded_indices _ _ Hdec). cbn [bind].
  rewrite (decoded_length _ _ Hdec).
  rewrite <- indicator_combine.
  apply coo_matrix_Ok.
  - now rewrite repeat_length.
  - rewrite repeat_length. clear. induction decoded as [|[n fs] d IH]; [reflexivity|].
    cbn [flat_map fst snd]. rewrite !length_app, length_map. now f_equal.
  - destruct Hmaxf as [_ Hle]. inversion Hle; subst. cbn [fst]. lia.
  - destruct Hmaxn as [Hin Hle]. cbn [snd].
    apply in_map_iff in Hin. destruct Hin as [p [<- Hp]].
    rewrite Forall_forall in Hall. destruct (Hall p Hp) as [H0 _]. lia.
  - rewrite indicator_combine. apply Forall_forall. intros t Ht.
    unfold indicator_triples in Ht. apply in_flat_map in Ht.
    destruct Ht as [p [Hp Ht]]. apply in_map_iff in Ht.
    destruct Ht as [f [<- Hf]].
    rewrite Forall_forall in Hall. destruct (Hall p Hp) as (Hp0 & _ & Hfs).
    rewrite Forall_forall in Hfs. specialize (Hfs f Hf).
    destruct Hmaxn as [_ Hlen]. rewrite Forall_forall in Hlen.
    specialize (Hlen (fst p) (in_map fst _ _ Hp)).
    destruct Hmaxf as [_ Hlef]. inversion Hlef as [|? ? _ Hlef']; subst.
    rewrite Forall_forall in Hlef'.
    assert (In f (flat_map snd decoded)) as Hin by (apply in_flat_map; eauto).
    specialize (Hlef' f Hin).
    unfold in_bounds, t_row, t_col. cbn [fst snd]. lia.
Qed.

End SparseLoader.



(** The example mapping, computed. *)
Example example_features_matrix :
  option_map to_dense
    (returned (read_sparse_features Decimal.int_of_str example_features)) =
  Some [[0; 0; 1]; [1; 0; 0]; [0; 0; 0]; [1; 0; 0]]%Q.
Proof. vm_compute. reflexivity. Qed.

(** A feature listed twice for a node is stored twice and counts 2. *)
Example repeated_feature_counts_twice :
  option_map to_dense
    (returned (read_sparse_features Decimal.int_of_str
                 [("0"%string, [JInt 1; JInt 1])])) =
  Some [[0]; [2]]%Q.
Proof. vm_compute. reflexivity. Qed.

(** C8, as stated, fails: the mapping {"0": [1.5]} holds a feature index
    that is not an integer, and the loader returns a matrix, with the index
    truncated to 1. *)
Lemma read_sparse_features_rejection_refuted :
  ~ (forall (int_of_str : string -> option Z)
            (features : list (string * list json)),
        (exists kv, In kv features /\
                    (int_of_str (fst kv) = None \/
                     exists v, In v (snd kv) /\ ~ integer_feature v)) ->
        raises (read_sparse_features int_of_str features)).
Proof.
  intros H.
  destruct (H Decimal.int_of_str fractional_features) as [e He].
  - eexists. split; [now left|]. right. eexists. split; [now left|].
    cbn. tauto.
  - vm_compute in He. discriminate He.
Qed.

Example fractional_features_matrix :
  read_sparse_features Decimal.int_of_str fractional_features =
  Ok (mk_sp (2, 1) [(1, 0, 1%Q)]).
Proof. reflexivity. Qed.

(** C8 (amended). For every sparse feature mapping that contains a node
    key which [int] cannot read, or a feature which [int] rejects (a
    string that is no integer literal, or null), [read_sparse_features]
    raises and returns no matrix. *)
Theorem read_sparse_features_rejects
        (int_of_str : string -> option Z)
        (features : list (string * list json)) :
  (exists kv, In kv features /\
              (int_of_str (fst kv) = None \/
               exists v, In v (snd kv) /\ rejected_feature int_of_str v)) ->
  raises (read_sparse_features int_of_str features).
Proof.
  intros [kv [Hkv Hbad]]. unfold read_sparse_features.
  apply raises_bind. intros index_2 _.
  apply raises_bind. intros nodes Hnodes.
  destruct Hbad as [Hkey|[v [Hv Hrej]]].
  - exfalso.
    assert (raises (mapM (fun kv => int_str int_of_str (fst kv)) features))
      as [e He]; [|congruence].
    apply mapM_raises. exists kv. split; [assumption|].
    unfold int_str. rewrite Hkey. now exists ValueError.
  - apply raises_bind. intros top_node _.
    apply raises_bind. intros features' Hf. exfalso.
    assert (raises (mapM (fun kv => mapM (py_int int_of_str) (snd kv)) features))
      as [e He]; [|congruence].
    apply mapM_raises. exists kv. split; [assumption|].
    apply mapM_raises. exists v. now split.
Qed.

Lemma read_sparse_features_rejects_witness :
  raises (read_sparse_features Decimal.int_of_str malformed_features).
Proof.
  apply (read_sparse_features_rejects Decimal.int_of_str malformed_features).
  exists ("x"%string, [JInt 0]). split; [now left|]. left. reflexivity.
Defined.

(** Which feature values [int] rejects: null, and the strings that are no
    integer literal. *)
Lemma rejected_feature_cases (int_of_str : string -> option Z) (v : json) :
  rejected_feature int_of_str v <->
  v = JNull \/ exists s, v = JStr s /\ int_of_str s = None.
Proof.
  unfold rejected_feature, raises. destruct v as [z|q|s|]; cbn.
  - split; [intros [e He]; discriminate|intros [H|[s [H _]]]; discriminate].
  - split; [intros [e He]; discriminate|intros [H|[s [H _]]]; discriminate].
  - unfold int_str. destruct (int_of_str s) eqn:Hs; split.
    + intros [e He]; discriminate.
    + intros [H|[s' [H H']]]; [discriminate|]. injection H as ->. congruence.
    + intros _. right. eauto.
    + intros _. now exists ValueError.
  - split; [tauto|]. intros _. now exists TypeError.
Qed.

(** * Further properties of the helpers *)

(** ** Which edge tables [read_graph] accepts *)

Lemma coo_matrix_out_of_bounds (values : list Q) (row col : list Z)
      (shp : Z * Z) :
  (exists t, In t (combine (combine row col) values) /\ in_bounds shp t = false) ->
  coo_matrix values row col shp = Raise ValueError.
Proof.
  intros [t [Ht Hb]]. unfold coo_matrix.
  destruct (negb _); [reflexivity|].
  destruct (_ || _); [reflexivity|].
  destruct (forallb (in_bounds shp) _) eqn:Hall; [|reflexivity].
  rewrite forallb_forall in Hall. rewrite (Hall t Ht) in Hb. discriminate.
Qed.

Lemma node_on_an_edge (g : Nx.Graph) (v : Nx.node) :
  Nx.well_formed g -> 1 <= Nx.degree g v ->
  exists u, In (v, u) (Nx.edges g) \/ In (u, v) (Nx.edges g).
Proof.
  intros (Hnd & Hnb & Hsym) Hdeg. unfold Nx.degree, len in Hdeg.
  destruct (Nx.neighbors g v) as [|u nbrs] eqn:Hn; [cbn in Hdeg; lia|].
  assert (In u (Nx.neighbors g v)) as Hu by (rewrite Hn; now left).
  exists u. destruct (Z.eq_dec v u) as [<-|Hne].
  - left. apply loop_in_edges_from; [assumption|intros []].
  - apply (edge_in_edges_from [] g v u); auto.
Qed.

Lemma raw_adjacency_out_of_range (g : Nx.Graph) (v : Nx.node) :
  Nx.well_formed g -> In v (Nx.nodes g) -> 1 <= Nx.degree g v ->
  v < 0 \/ node_count g <= v ->
  raw_adjacency g = Raise ValueError.
Proof.
  intros Hwf Hv Hdeg Hout. destruct (node_on_an_edge g v Hwf Hdeg) as [u Hu].
  unfold raw_adjacency. apply coo_matrix_out_of_bounds. rewrite raw_combine.
  exists (v, u, 1%Q). split.
  - apply in_or_app. destruct Hu as [Hu|Hu]; [left|right]; apply in_map_iff.
    + now exists (v, u).
    + now exists (u, v).
  - unfold in_bounds, t_row, t_col, len. cbn [fst snd].
    rewrite range_length. unfold node_count, len in Hout.
    destruct (Z.leb_spec 0 v); [|reflexivity].
    destruct (Z.ltb_spec v (Z.of_nat (length (Nx.nodes g)))); [lia|reflexivity].
Qed.

Lemma in_range_contiguous (g : Nx.Graph) :
  NoDup (Nx.nodes g) ->
  (forall v, In v (Nx.nodes g) -> 0 <= v < node_count g) ->
  contiguous g.
Proof.
  intros Hnd Hall z. split; [apply Hall|]. intros Hz.
  apply (NoDup_length_incl Hnd (l' := range (length (Nx.nodes g)))).
  - now rewrite range_length.
  - intros v Hv. apply range_In. specialize (Hall v Hv).
    unfold node_count, len in Hall. lia.
  - apply range_In. unfold len in Hz. lia.
Qed.

(** X1. A graph without isolated nodes in which some node identifier is
    negative or not below the number of nodes makes [normalize_adjacency]
    raise [ValueError]: the node lies on an edge, and the edge's index does
    not fit the n x n shape. *)
Theorem normalize_adjacency_out_of_range (g : Nx.Graph) :
  Nx.well_formed g ->
  (forall v, In v (Nx.nodes g) -> 1 <= Nx.degree g v) ->
  (exists v, In v (Nx.nodes g) /\ (v < 0 \/ node_count g <= v)) ->
  normalize_adjacency g = Raise ValueError.
Proof.
  intros Hwf Hdeg [v [Hv Hout]]. unfold normalize_adjacency.
  rewrite (degrees_return g Hdeg). cbn [bind].
  rewrite (raw_adjacency_out_of_range g v Hwf Hv (Hdeg v Hv) Hout).
  reflexivity.
Qed.

Lemma normalize_adjacency_out_of_range_witness :
  normalize_adjacency (Nx.from_edgelist [(0, 5)]) = Raise ValueError.
Proof.
  apply (normalize_adjacency_out_of_range (Nx.from_edgelist [(0, 5)])).
  - apply from_edgelist_well_formed.
  - apply from_edgelist_degree_positive.
  - exists 5. split; [vm_compute; tauto|right; vm_compute; discriminate].
Defined.

(** X2. [read_graph] returns exactly when the node identifiers of the edge
    table are 0 .. n-1 (in any order of appearance): it then returns an
    n x n matrix, whatever the order; on every other table it raises
    [ValueError].  It never raises [ZeroDivisionError], since every node of
    an edge table lies on an edge. *)
Theorem read_graph_outcome (rows : list (Z * Z)) (order : Z) :
  match read_graph rows order with
  | Ok M =>
      contiguous (Nx.from_edgelist rows) /\
      shape M = (node_count (Nx.from_edgelist rows),
                 node_count (Nx.from_edgelist rows))
  | Raise e => e = ValueError /\ ~ contiguous (Nx.from_edgelist rows)
  end.
Proof.
  set (g := Nx.from_edgelist rows).
  pose proof (from_edgelist_well_formed rows) as Hwf. fold g in Hwf.
  pose proof (from_edgelist_degree_positive rows) as Hdeg. fold g in Hdeg.
  destruct (existsb (fun v => negb ((0 <=? v) && (v <? node_count g)))
                    (Nx.nodes g)) eqn:Hex.
  - apply existsb_exists in Hex. destruct Hex as [v [Hv Hb]].
    assert (v < 0 \/ node_count g <= v) as Hout.
    { apply negb_true_iff, andb_false_iff in Hb. destruct Hb as [Hb|Hb].
      - left. now apply Z.leb_gt.
      - right. now apply Z.ltb_ge. }
    unfold read_graph. fold g.
    rewrite (normalize_adjacency_out_of_range g Hwf Hdeg); [|eauto].
    cbn [bind]. split; [reflexivity|].
    intros Hc. apply Hc in Hv. unfold node_count in Hout. lia.
  - assert (contiguous g) as Hc.
    { destruct Hwf as (Hnd & _). apply in_range_contiguous; [assumption|].
      intros v Hv.
      destruct (negb ((0 <=? v) && (v <? node_count g))) eqn:Hb.
      - assert (existsb (fun v => negb ((0 <=? v) && (v <? node_count g)))
                        (Nx.nodes g) = true) as Ht
          by (apply existsb_exists; eauto).
        congruence.
      - apply negb_false_iff, andb_true_iff in Hb. destruct Hb as [H1 H2].
        apply Z.leb_le in H1. apply Z.ltb_lt in H2. lia. }
    pose proof (normalize_adjacency_returns g Hwf Hc Hdeg) as HA.
    unfold read_graph. fold g. rewrite HA. cbn [bind].
    match type of HA with _ = Ok ?M => set (A := M) in * end.
    pose proof (normalize_adjacency_square g A HA) as Hsq.
    pose proof (normalize_adjacency_shape g A HA) as Hshape.
    destruct (Z.ltb_spec 1 order) as [Hk|Hk].
    + rewrite (target_matrix_series A Hsq order Hk).
      split; [assumption|]. now rewrite power_series_shape.
    + unfold target_matrix. destruct (Z.gtb_spec order 1) as [|_]; [lia|].
      split; assumption.
Qed.

(** ** Column sums *)

Section ColumnSums.

Local Open Scope Q_scope.

Lemma Qsum_swap {A B : Type} (f : A -> B -> Q) (rs : list A) (ks : list B) :
  Qsum (map (fun r => Qsum (map (fun k => f r k) ks)) rs) ==
  Qsum (map (fun k => Qsum (map (fun r => f r k) rs)) ks).
Proof.
  induction rs as [|r rs IH].
  - cbn. symmetry. apply Qsum_map_zero. reflexivity.
  - cbn [map Qsum fold_right]. fold (Qsum (map (fun r0 => Qsum (map (fun k => f r0 k) ks)) rs)).
    rewrite IH. symmetry.
    rewrite (Qsum_map_ext _ (fun k => f r k + Qsum (map (fun r0 => f r0 k) rs)))
      by (intros k _; reflexivity).
    apply Qsum_map_plus.
Qed.

Lemma column_sum_plus (A B : spmatrix) (c : Z) :
  nrows A = nrows B ->
  column_sum (plus A B) c == column_sum A c + column_sum B c.
Proof.
  intros Hr. unfold column_sum. unfold nrows at 1. cbn [plus shape].
  fold (nrows A). rewrite <- Hr. rewrite <- Qsum_map_plus.
  apply Qsum_map_ext. intros r _. apply entry_plus.
Qed.

(** The column sums of a product are the column sums of the left factor,
    weighted by the column of the right factor. *)
Lemma column_sum_mul (A B : spmatrix) (c : Z) :
  cols_in_range A ->
  column_sum (mul A B) c ==
  Qsum (map (fun k => column_sum A k * entry B k c) (range (Z.to_nat (ncols A)))).
Proof.
  intros Hc. unfold column_sum. unfold nrows at 1. cbn [mul shape fst].
  rewrite (Qsum_map_ext _
             (fun r => Qsum (map (fun k => entry A r k * entry B k c)
                                 (range (Z.to_nat (ncols A))))))
    by (intros r _; now apply entry_mul).
  rewrite Qsum_swap. apply Qsum_map_ext. intros k _.
  rewrite (Qsum_map_ext _ (fun r => entry B k c * entry A r k))
    by (intros r _; ring).
  rewrite Qsum_map_scale. ring.
Qed.

Lemma column_sum_mul_stochastic (A B : spmatrix) (c : Z) :
  cols_in_range A -> column_stochastic A -> ncols A = nrows B ->
  column_sum (mul A B) c == column_sum B c.
Proof.
  intros Hc Hs Hshape. rewrite column_sum_mul by assumption.
  unfold column_sum at 2. rewrite <- Hshape.
  apply Qsum_map_ext. intros k Hk. apply range_In in Hk.
  rewrite (Hs k) by lia. ring.
Qed.

Variable A : spmatrix.
Hypothesis A_square : is_square A.
Hypothesis A_bounded : bounded A.
Hypothesis A_stochastic : column_stochastic A.

Lemma matrix_power_stochastic (k : nat) : column_stochastic (matrix_power A k).
Proof.
  destruct k as [|k]; [assumption|].
  induction k as [|k IH]; [assumption|].
  intros c Hc.
  change (matrix_power A (S (S k))) with (mul (matrix_power A (S k)) A) in *.
  rewrite column_sum_mul_stochastic.
  - apply A_stochastic. unfold ncols in *. cbn [mul shape snd] in Hc. exact Hc.
  - apply bounded_cols, matrix_power_bounded. assumption.
  - exact IH.
  - unfold ncols. rewrite matrix_power_shape. exact (eq_sym A_square).
Qed.

Lemma power_series_column_sum (k : nat) (c : Z) :
  (0 <= c < ncols A)%Z ->
  column_sum (power_series A (S k)) c == inject_Z (Z.of_nat (S k)).
Proof.
  intros Hc. induction k as [|k IH].
  - cbn [power_series]. now apply A_stochastic.
  - change (power_series A (S (S k)))
      with (plus (power_series A (S k)) (matrix_power A (S (S k)))).
    rewrite column_sum_plus.
    + rewrite IH, (matrix_power_stochastic (S (S k)) c).
      * rewrite (Nat2Z.inj_succ (S k)). unfold Z.succ. rewrite inject_Z_plus. ring.
      * unfold ncols. now rewrite matrix_power_shape.
    + unfold nrows. now rewrite power_series_shape, matrix_power_shape.
Qed.

End ColumnSums.

Section NormalizedColumns.

Local Open Scope Q_scope.

Variable g : Nx.Graph.
Hypothesis g_wf : Nx.well_formed g.
Hypothesis g_contiguous : contiguous g.
Hypothesis g_degrees : forall v, In v (Nx.nodes g) -> (1 <= Nx.degree g v)%Z.

Lemma normalize_adjacency_column_sum (A : spmatrix) (j : Z) :
  normalize_adjacency g = Ok A ->
  (0 <= j < node_count g)%Z ->
  column_sum A j ==
  inject_Z (Nx.degree g j)
  / inject_Z (Nx.degree g (nth (Z.to_nat j) (Nx.nodes g) 0%Z)).
Proof.
  intros HA Hj. unfold column_sum, nrows.
  rewrite (normalize_adjacency_shape g A HA). cbn [fst].
  set (d := inject_Z (Nx.degree g (nth (Z.to_nat j) (Nx.nodes g) 0%Z))).
  rewrite (Qsum_map_ext _ (fun r => / d * edge_weight g r j)).
  - rewrite Qsum_map_scale, edge_weight_column.
    + unfold Qdiv. ring.
    + assumption.
    + apply range_NoDup.
    + intros v Hv. apply range_In. apply g_contiguous in Hv.
      unfold node_count, len in *. lia.
  - intros r _.
    rewrite (normalize_adjacency_scaled_by_position g g_wf g_contiguous
               g_degrees A r j HA Hj).
    fold d. unfold Qdiv. ring.
Qed.

End NormalizedColumns.

Lemma nth_range (n : nat) (j : Z) :
  0 <= j < Z.of_nat n -> nth (Z.to_nat j) (range n) 0 = j.
Proof.
  intros Hj. unfold range.
  change 0 with (Z.of_nat 0). rewrite map_nth, seq_nth by lia. lia.
Qed.

Lemma ordered_column_stochastic (g : Nx.Graph) (A : spmatrix) :
  Nx.well_formed g ->
  Nx.nodes g = range (length (Nx.nodes g)) ->
  (forall v, In v (Nx.nodes g) -> 1 <= Nx.degree g v) ->
  normalize_adjacency g = Ok A ->
  column_stochastic A.
Proof.
  intros Hwf Hord Hdeg HA c Hc.
  pose proof (contiguous_of_range g Hord) as Hcont.
  unfold ncols in Hc. rewrite (normalize_adjacency_shape g A HA) in Hc.
  cbn [snd] in Hc.
  rewrite (normalize_adjacency_column_sum g Hwf Hcont Hdeg A c HA Hc).
  replace (nth (Z.to_nat c) (Nx.nodes g) 0) with c
    by (rewrite Hord; symmetry; apply nth_range;
        unfold node_count, len in Hc; lia).
  assert (In c (Nx.nodes g)) as Hin by (apply Hcont; exact Hc).
  specialize (Hdeg c Hin).
  field. intros H0. unfold Qeq in H0. cbn in H0. lia.
Qed.

(** X3. Whatever the order in which the nodes were inserted, a graph with
    identifiers 0 .. n-1 and no isolated node is normalized by position:
    the entry at (i, j) is the raw weight of (i, j) divided by the degree
    of the node inserted j-th, so column j sums to degree(j) divided by
    the degree of that node. *)
Theorem normalize_adjacency_by_position (g : Nx.Graph) :
  Nx.well_formed g ->
  contiguous g ->
  (forall v, In v (Nx.nodes g) -> 1 <= Nx.degree g v) ->
  exists A,
    normalize_adjacency g = Ok A /\
    forall j, 0 <= j < node_count g ->
      (forall i,
          (entry A i j ==
           edge_weight g i j
           / inject_Z (Nx.degree g (nth (Z.to_nat j) (Nx.nodes g) 0%Z)))%Q) /\
      (column_sum A j ==
       inject_Z (Nx.degree g j)
       / inject_Z (Nx.degree g (nth (Z.to_nat j) (Nx.nodes g) 0%Z)))%Q.
Proof.
  intros Hwf Hc Hdeg.
  pose proof (normalize_adjacency_returns g Hwf Hc Hdeg) as HA.
  eexists. split; [exact HA|]. intros j Hj. split.
  - intros i. now apply normalize_adjacency_scaled_by_position.
  - now apply normalize_adjacency_column_sum.
Qed.

Lemma normalize_adjacency_by_position_witness :
  exists A,
    normalize_adjacency (Nx.from_edgelist unordered_path) = Ok A /\
    forall j, 0 <= j < node_count (Nx.from_edgelist unordered_path) ->
      (forall i,
          (entry A i j ==
           edge_weight (Nx.from_edgelist unordered_path) i j
           / inject_Z (Nx.degree (Nx.from_edgelist unordered_path)
                         (nth (Z.to_nat j)
                              (Nx.nodes (Nx.from_edgelist unordered_path)) 0%Z)))%Q) /\
      (column_sum A j ==
       inject_Z (Nx.degree (Nx.from_edgelist unordered_path) j)
       / inject_Z (Nx.degree (Nx.from_edgelist unordered_path)
                     (nth (Z.to_nat j)
                          (Nx.nodes (Nx.from_edgelist unordered_path)) 0%Z)))%Q.
Proof.
  apply (normalize_adjacency_by_position (Nx.from_edgelist unordered_path)).
  - apply from_edgelist_well_formed.
  - intros z. change (Nx.nodes (Nx.from_edgelist unordered_path)) with [1; 2; 0].
    unfold len. cbn [In length]. lia.
  - apply from_edgelist_degree_positive.
Defined.

(** X4. When the nodes of an edge table first appear in ascending order
    0, 1, ..., n-1, the normalized adjacency matrix is column-stochastic
    and every column of the target matrix of order k >= 1 sums to k. *)
Theorem read_graph_column_sums (rows : list (Z * Z)) (order : Z) :
  Nx.nodes (Nx.from_edgelist rows)
    = range (length (Nx.nodes (Nx.from_edgelist rows))) ->
  1 <= order ->
  exists A M,
    normalize_adjacency (Nx.from_edgelist rows) = Ok A /\
    read_graph rows order = Ok M /\
    column_stochastic A /\
    forall c, 0 <= c < node_count (Nx.from_edgelist rows) ->
      (column_sum M c == inject_Z order)%Q.
Proof.
  intros Hord Hk. set (g := Nx.from_edgelist rows) in *.
  pose proof (from_edgelist_well_formed rows) as Hwf. fold g in Hwf.
  pose proof (from_edgelist_degree_positive rows) as Hdeg. fold g in Hdeg.
  pose proof (contiguous_of_range g Hord) as Hcont.
  pose proof (normalize_adjacency_returns g Hwf Hcont Hdeg) as HA.
  match type of HA with _ = Ok ?M => set (A := M) in * end.
  pose proof (normalize_adjacency_square g A HA) as Hsq.
  pose proof (normalize_adjacency_bounded g A HA) as Hb.
  pose proof (normalize_adjacency_shape g A HA) as Hshape.
  pose proof (ordered_column_stochastic g A Hwf Hord Hdeg HA) as Hst.
  exists A. unfold read_graph. fold g. rewrite HA. cbn [bind].
  destruct (Z.ltb_spec 1 order) as [Hgt|Hle].
  - exists (power_series A (Z.to_nat order)).
    split; [reflexivity|]. split; [now apply target_matrix_series|].
    split; [assumption|]. intros c Hc.
    destruct (Z.to_nat order) as [|k] eqn:Hn; [lia|].
    rewrite (power_series_column_sum A Hsq Hb Hst k c).
    + rewrite <- Hn. now rewrite Z2Nat.id by lia.
    + unfold ncols. rewrite Hshape. exact Hc.
  - assert (order = 1) as -> by lia. exists A.
    split; [reflexivity|]. split; [reflexivity|]. split; [assumption|].
    intros c Hc. apply Hst. unfold ncols. rewrite Hshape. exact Hc.
Qed.

Lemma read_graph_column_sums_witness :
  exists A M,
    normalize_adjacency (Nx.from_edgelist cycle4) = Ok A /\
    read_graph cycle4 3 = Ok M /\
    column_stochastic A /\
    forall c, 0 <= c < node_count (Nx.from_edgelist cycle4) ->
      (column_sum M c == inject_Z 3)%Q.
Proof.
  apply (read_graph_column_sums cycle4 3); [reflexivity|lia].
Defined.

(** X5. The raw adjacency matrix of every well-formed graph is symmetric. *)
Theorem raw_adjacency_symmetric (g : Nx.Graph) (raw : spmatrix) :
  Nx.well_formed g ->
  raw_adjacency g = Ok raw ->
  forall i j, (entry raw i j == entry raw j i)%Q.
Proof.
  intros Hwf Hraw i j.
  rewrite !(raw_adjacency_entry g Hwf raw _ _ Hraw). unfold edge_weight.
  assert (Nx.mem j (Nx.neighbors g i) = Nx.mem i (Nx.neighbors g j)) as ->.
  { destruct (Nx.mem i (Nx.neighbors g j)) eqn:H.
    - apply mem_In. apply mem_In in H. now apply (neighbors_symmetric g Hwf).
    - apply mem_false. apply mem_false in H. intros H'. apply H.
      now apply (neighbors_symmetric g Hwf). }
  rewrite (Z.eqb_sym i j). reflexivity.
Qed.

Lemma raw_adjacency_symmetric_witness :
  exists raw,
    raw_adjacency (Nx.from_edgelist repeated_rows) = Ok raw /\
    forall i j, (entry raw i j == entry raw j i)%Q.
Proof.
  eexists. split; [reflexivity|].
  apply (raw_adjacency_symmetric (Nx.from_edgelist repeated_rows)).
  - apply from_edgelist_well_formed.
  - reflexivity.
Defined.

(** ** The sparse loader beyond well-formed mappings *)

Section SparseLoaderOutcomes.

Local Open Scope Q_scope.

Variable int_of_str : string -> option Z.

Lemma entry_of_node_count (n0 : Z) (fs : list Z) (f n : Z) :
  entry_of (map (fun f' => (f', n0, 1)) fs) f n ==
  inject_Z (Z.of_nat (if (n0 =? n)%Z then count_occ Z.eq_dec fs f else 0)).
Proof.
  induction fs as [|x fs IH].
  - cbn. now destruct (n0 =? n)%Z.
  - cbn [map]. rewrite entry_of_cons, IH.
    unfold at_pos, t_row, t_col, t_val. cbn [fst snd count_occ].
    destruct (Z.eqb_spec n0 n) as [_|_]; destruct (Z.eq_dec x f) as [->|Hne].
    + rewrite Z.eqb_refl. cbn [andb]. rewrite Nat2Z.inj_succ. unfold Z.succ.
      rewrite inject_Z_plus. ring.
    + destruct (Z.eqb_spec x f) as [|_]; [contradiction|]. cbn [andb]. ring.
    + rewrite andb_false_r. ring.
    + rewrite andb_false_r. ring.
Qed.

Lemma entry_of_indicator_count (decoded : list (Z * list Z)) (f n : Z) :
  entry_of (indicator_triples decoded) f n ==
  inject_Z (Z.of_nat (listings decoded f n)).
Proof.
  induction decoded as [|[n0 fs] decoded IH]; [reflexivity|].
  cbn [indicator_triples flat_map fst snd listings fold_right].
  fold (indicator_triples decoded). fold (listings decoded f n).
  rewrite entry_of_app, entry_of_node_count, IH.
  rewrite Nat2Z.inj_add, inject_Z_plus. reflexivity.
Qed.

(** The loader's steps up to the construction of the matrix, on a mapping
    whose keys and features read as integers. *)
Lemma read_sparse_features_steps
      (features : list (string * list json)) (decoded : list (Z * list Z))
      (top_node top_feature : Z) :
  Forall2 (fun kv p => int_of_str (fst kv) = Some (fst p) /\
                       snd kv = map JInt (snd p)) features decoded ->
  py_max (map fst decoded) = Ok top_node ->
  py_max (map top_or_zero (map snd decoded)) = Ok top_feature ->
  read_sparse_features int_of_str features =
  coo_matrix (repeat 1 (length (flat_map snd decoded)))
             (flat_map snd decoded)
             (flat_map (fun p => map (fun _ => fst p) (snd p)) decoded)
             (top_feature + 1, top_node + 1)%Z.
Proof.
  intros Hdec Htn Htf. unfold read_sparse_features.
  rewrite (decoded_keys_per_feature _ _ _ Hdec). cbn [bind].
  rewrite (decoded_keys _ _ _ Hdec). cbn [bind].
  rewrite Htn. cbn [bind].
  rewrite (decoded_lists _ _ _ Hdec). cbn [bind].
  rewrite (mapM_all_Ok _ top_or_zero) by (intros fs _; apply py_max_top_or_zero).
  cbn [bind]. rewrite Htf. cbn [bind].
  rewrite (decoded_indices _ _ _ Hdec). cbn [bind].
  now rewrite (decoded_length _ _ _ Hdec).
Qed.

Lemma decoded_lengths (decoded : list (Z * list Z)) :
  length (flat_map (fun p => map (fun _ : Z => fst p) (snd p)) decoded) =
  length (flat_map snd decoded).
Proof.
  induction decoded as [|[n fs] d IH]; [reflexivity|].
  cbn [flat_map fst snd]. rewrite !length_app, length_map. now f_equal.
Qed.

End SparseLoaderOutcomes.



(** X7. A mapping whose keys and features read as integers is refused
    with [ValueError] when it is empty, and when it lists a negative
    feature index or lists a feature under a negative key. *)
Theorem read_sparse_features_out_of_range
        (int_of_str : string -> option Z)
        (features : list (string * list json)) (decoded : list (Z * list Z)) :
  Forall2 (fun kv p => int_of_str (fst kv) = Some (fst p) /\
                       snd kv = map JInt (snd p)) features decoded ->
  decoded = [] \/
  (exists p f, In p decoded /\ In f (snd p) /\ (f < 0 \/ fst p < 0)) ->
  read_sparse_features int_of_str features = Raise ValueError.
Proof.
  intros Hdec [->|(p & f & Hp & Hf & Hneg)].
  - inversion Hdec; subst. reflexivity.
  - destruct (py_max_returns (map fst decoded)) as [tn Htn].
    { destruct decoded; [contradiction|discriminate]. }
    destruct (py_max_returns (map top_or_zero (map snd decoded))) as [tf Htf].
    { destruct decoded; [contradiction|discriminate]. }
    rewrite (read_sparse_features_steps int_of_str features decoded tn tf Hdec Htn Htf).
    apply coo_matrix_out_of_bounds. rewrite indicator_combine.
    exists (f, fst p, 1%Q). split.
    + unfold indicator_triples. apply in_flat_map. exists p. split; [assumption|].
      apply in_map_iff. now exists f.
    + unfold in_bounds, t_row, t_col. cbn [fst snd].
      destruct (Z.leb_spec 0 f); [|reflexivity].
      destruct (Z.leb_spec 0 (fst p)); [lia|].
      now rewrite andb_false_r.
Qed.

Lemma read_sparse_features_out_of_range_witness :
  read_sparse_features Decimal.int_of_str [("0"%string, [JInt (-1)])]
  = Raise ValueError.
Proof.
  apply (read_sparse_features_out_of_range Decimal.int_of_str
           [("0"%string, [JInt (-1)])] [(0, [-1])]).
  - repeat constructor.
  - right. exists (0, [-1]), (-1). cbn. intuition lia.
Defined.

(** ** [parameter_parser] beyond the defaults *)

Section ParserFacts.

Variable int_of_str : string -> option Z.
Variable float_of_str : string -> option Q.

Local Abbreviation store := (Args.store int_of_str float_of_str).
Local Abbreviation parse_args := (Args.parse_args int_of_str float_of_str).

Lemma kept_refl (opts : list string) (ns : Args.Namespace) : kept opts ns ns.
Proof. repeat split; reflexivity. Qed.

Lemma kept_trans (opt : string) (opts : list string)
      (a b c : Args.Namespace) :
  kept [opt] a b -> kept opts b c -> kept (opt :: opts) a c.
Proof.
  unfold kept. cbn [In]. intros Hab Hbc.
  repeat match goal with
         | H : _ /\ _ |- _ => destruct H
         end.
  repeat split; intros Hn;
    match goal with
    | H1 : ~ (?o = ?x \/ False) -> ?f b = ?f a,
      H2 : ~ In ?x opts -> ?f c = ?f b |- ?f c = ?f a =>
        rewrite H2, H1; [reflexivity|tauto|tauto]
    end.
Qed.

Lemma store_kept (ns ns' : Args.Namespace) (opt : string) (raw : option string) :
  store ns opt raw = Args.Parsed ns' -> kept [opt] ns ns'.
Proof.
  unfold Args.store. intros H.
  repeat match type of H with
         | (if (opt =? ?name)%string then _ else _) = _ =>
             destruct (String.eqb_spec opt name)
         end;
    try discriminate;
    repeat match type of H with
           | match raw with _ => _ end = _ => destruct raw; try discriminate
           | match ?p ?s with _ => _ end = _ => destruct (p s); try discriminate
           end;
    injection H as <-; subst;
    unfold kept; cbn [In]; repeat split; intros Hn;
      try reflexivity; exfalso; apply Hn; left; reflexivity.
Qed.

Lemma parse_args_kept (supplied : list (string * option string))
      (ns ns' : Args.Namespace) :
  parse_args ns supplied = Args.Parsed ns' -> kept (map fst supplied) ns ns'.
Proof.
  revert ns. induction supplied as [|[opt raw] supplied IH]; intros ns H.
  - injection H as <-. apply kept_refl.
  - cbn [Args.parse_args] in H. cbn [map fst].
    destruct (store ns opt raw) as [ns1|] eqn:Hs; [|discriminate].
    eapply kept_trans; [apply (store_kept _ _ _ _ Hs)|now apply IH].
Qed.

Lemma store_refused (ns : Args.Namespace) (opt : string) (raw : option string) :
  refused_option int_of_str float_of_str opt raw ->
  store ns opt raw = Args.SystemExit.
Proof.
  unfold refused_option. cbn [In]. intros H. unfold Args.store. cbv zeta.
  destruct H as [[Hopt Hraw]|[Hopt Hraw]].
  - destruct Hopt as [<-|[<-|[<-|[]]]]; cbn;
      (destruct raw as [s|]; [rewrite Hraw|]; reflexivity).
  - destruct Hopt as [<-|[<-|[<-|[]]]]; cbn;
      (destruct raw as [s|]; [rewrite Hraw|]; reflexivity).
Qed.

Lemma parse_args_refused (supplied : list (string * option string))
      (ns : Args.Namespace) :
  (exists opt raw, In (opt, raw) supplied /\
                   refused_option int_of_str float_of_str opt raw) ->
  parse_args ns supplied = Args.SystemExit.
Proof.
  revert ns. induction supplied as [|[opt raw] supplied IH];
    intros ns (o & r & Hin & Href); [contradiction|].
  cbn [Args.parse_args]. destruct Hin as [Heq|Hin].
  - injection Heq as -> ->. now rewrite store_refused.
  - destruct (store ns opt raw); [|reflexivity]. apply IH. eauto.
Qed.

End ParserFacts.



(** X9. [parameter_parser] exits (argparse's [SystemExit]) as soon as the
    command line holds an integer option ([--dimensions], [--order],
    [--iterations]) with a value that [int] refuses, a float option
    ([--lambd], [--alpha], [--lower-control]) with a value that [float]
    refuses, or one of these six without a value - whatever else is
    supplied. *)
Theorem parameter_parser_exits
        (int_of_str : string -> option Z) (float_of_str : string -> option Q)
        (supplied : list (string * option string)) :
  (exists opt raw, In (opt, raw) supplied /\
                   refused_option int_of_str float_of_str opt raw) ->
  Args.parameter_parser int_of_str float_of_str supplied = Args.SystemExit.
Proof.
  intros H. unfold Args.parameter_parser. now apply parse_args_refused.
Qed.

Lemma parameter_parser_exits_witness :
  Args.parameter_parser Decimal.int_of_str (fun _ => None)
    [("--features"%string, Some "dense"%string);
     ("--order"%string, Some "two"%string)] = Args.SystemExit.
Proof.
  apply (parameter_parser_exits Decimal.int_of_str (fun _ => None)).
  exists "--order"%string, (Some "two"%string). split.
  - right. now left.
  - left. split; [cbn; tauto|reflexivity].
Defined.

(** ** [tab_printer] *)

Section Sorting.

Lemma insert_permutation (k : string) (ks : list string) :
  Permutation (Str.insert k ks) (k :: ks).
Proof.
  induction ks as [|k' ks IH]; cbn [Str.insert]; [reflexivity|].
  destruct (String.leb k k'); [reflexivity|].
  rewrite IH. apply perm_swap.
Qed.

Lemma sorted_permutation (ks : list string) : Permutation (Str.sorted ks) ks.
Proof.
  induction ks as [|k ks IH]; [reflexivity|].
  cbn [Str.sorted fold_right]. fold (Str.sorted ks).
  rewrite insert_permutation. now constructor.
Qed.

Lemma insert_head (k : string) (ks : list string) (a : string) :
  String.leb a k = true ->
  HdRel (fun x y => String.leb x y = true) a ks ->
  HdRel (fun x y => String.leb x y = true) a (Str.insert k ks).
Proof.
  intros Hak Hd. destruct ks as [|k' ks]; cbn [Str.insert].
  - now constructor.
  - destruct (String.leb k k'); constructor; [assumption|].
    now inversion Hd.
Qed.

Lemma insert_sorted (k : string) (ks : list string) :
  Sorted (fun x y => String.leb x y = true) ks ->
  Sorted (fun x y => String.leb x y = true) (Str.insert k ks).
Proof.
  induction 1 as [|k' ks Hs IH Hd]; cbn [Str.insert].
  - repeat constructor.
  - destruct (String.leb k k') eqn:Hle.
    + constructor; [now constructor|now constructor].
    + constructor; [assumption|]. apply insert_head; [|assumption].
      destruct (String.leb_total k k') as [H|H]; congruence.
Qed.

Lemma sorted_is_sorted (ks : list string) :
  Sorted (fun x y => String.leb x y = true) (Str.sorted ks).
Proof.
  induction ks as [|k ks IH]; [constructor|].
  cbn [Str.sorted fold_right]. now apply insert_sorted.
Qed.

End Sorting.

Lemma getitem_In (args : list (string * cell)) (k : string) (v : cell) :
  NoDup (map fst args) -> In (k, v) args -> getitem args k = v.
Proof.
  induction args as [|[k' v'] args IH]; intros Hnd Hin; [contradiction|].
  cbn [map fst] in Hnd. inversion Hnd as [|? ? Hk Hnd']; subst.
  cbn [getitem]. destruct Hin as [Heq|Hin].
  - injection Heq as -> ->. now rewrite String.eqb_refl.
  - destruct (String.eqb_spec k' k) as [->|_]; [|now apply IH].
    exfalso. apply Hk. apply in_map_iff. now exists (k, v).
Qed.

Lemma getitem_keys (args : list (string * cell)) :
  NoDup (map fst args) ->
  map (fun k => (k, getitem args k)) (map fst args) = args.
Proof.
  intros Hnd. rewrite map_map. rewrite <- (map_id args) at 2.
  apply map_ext_in. intros [k v] Hin. cbn [fst]. f_equal.
  now apply getitem_In.
Qed.

Lemma Sorted_by_key (ks : list string) (f : string -> cell) :
  Sorted (fun x y => String.leb x y = true) ks ->
  Sorted (fun a b : string * cell => String.leb (fst a) (fst b) = true)
         (map (fun k => (k, f k)) ks).
Proof.
  induction 1 as [|k ks Hs IH Hd]; cbn [map]; constructor; [assumption|].
  destruct Hd; cbn [map]; constructor. assumption.
Qed.

(** X10. [tab_printer] hands to [draw] a table made of the attribute rows
    alone: one row per attribute with its own value, in ascending order of
    attribute name, the first of them standing as the header.  The title
    row [Parameter, Value] is replaced by it.  On a namespace without
    attributes the second [add_rows] call fails. *)
Theorem tab_printer_table (args : list (string * cell)) :
  NoDup (map fst args) ->
  match tab_printer args with
  | None => args = []
  | Some t =>
      exists items,
        Permutation items args /\
        Sorted (fun a b : string * cell => String.leb (fst a) (fst b) = true)
               items /\
        Texttable.header t
          = hd_error (map (fun kv => (CStr (label (fst kv)), snd kv)) items) /\
        Texttable.rows t
          = tl (map (fun kv => (CStr (label (fst kv)), snd kv)) items)
  end.
Proof.
  intros Hnd. unfold tab_printer. cbn [Texttable.add_rows Texttable.empty].
  set (keys := Str.sorted (map fst args)).
  assert (map (fun k => (CStr (label k), getitem args k)) keys =
          map (fun kv : string * cell => (CStr (label (fst kv)), snd kv))
              (map (fun k => (k, getitem args k)) keys)) as Hrows
    by (now rewrite map_map).
  destruct (map (fun k => (CStr (label k), getitem args k)) keys)
    as [|first others] eqn:Hmap.
  - cbn [Texttable.add_rows].
    assert (keys = []) as Hk by (destruct keys; [reflexivity|discriminate]).
    pose proof (sorted_permutation (map fst args)) as Hp. fold keys in Hp.
    rewrite Hk in Hp. apply Permutation_nil in Hp.
    destruct args; [reflexivity|discriminate].
  - cbn [Texttable.add_rows Texttable.header Texttable.rows app].
    exists (map (fun k => (k, getitem args k)) keys). split.
    + eapply Permutation_trans.
      * apply Permutation_map, sorted_permutation.
      * now rewrite getitem_keys.
    + split; [apply Sorted_by_key, sorted_is_sorted|].
      rewrite <- Hrows. split; reflexivity.
Qed.

Lemma tab_printer_table_witness :
  match tab_printer [("order"%string, CInt 2); ("alpha"%string, CNone)] with
  | None => [("order"%string, CInt 2); ("alpha"%string, CNone)] = []
  | Some t =>
      exists items,
        Permutation items [("order"%string, CInt 2); ("alpha"%string, CNone)] /\
        Sorted (fun a b : string * cell => String.leb (fst a) (fst b) = true)
               items /\
        Texttable.header t
          = hd_error (map (fun kv => (CStr (label (fst kv)), snd kv)) items) /\
        Texttable.rows t
          = tl (map (fun kv => (CStr (label (fst kv)), snd kv)) items)
  end.
Proof.
  apply (tab_printer_table [("order"%string, CInt 2); ("alpha"%string, CNone)]).
  repeat constructor; cbn; intuition discriminate.
Defined.

(** X11. For every configuration that [parameter_parser] can return, the
    table of [tab_printer] has the row of alpha as its header and the nine
    other parameters below it, labelled without underscores and with a
    capital first letter; no row reads [Parameter, Value]. *)
Theorem tab_printer_configuration (ns : Args.Namespace) :
  tab_printer (namespace_vars ns) =
  Some (Texttable.mk_table
          (Some (CStr "Alpha", CFloat (Args.alpha ns)))
          [(CStr "Dimensions", CInt (Args.dimensions ns));
           (CStr "Edge path", text_cell (Args.edge_path ns));
           (CStr "Feature path", text_cell (Args.feature_path ns));
           (CStr "Features", text_cell (Args.features ns));
           (CStr "Iterations", CInt (Args.iterations ns));
           (CStr "Lambd", CFloat (Args.lambd ns));
           (CStr "Lower control", CFloat (Args.lower_control ns));
           (CStr "Order", CInt (Args.order ns));
           (CStr "Output path", text_cell (Args.output_path ns))]) /\
  forall t, tab_printer (namespace_vars ns) = Some t ->
            ~ In (CStr "Parameter", CStr "Value") (table_lines t).
Proof.
  split; [reflexivity|].
  intros t Ht. cbv in Ht. injection Ht as <-. cbn [table_lines Texttable.header Texttable.rows In].
  intros H. repeat (destruct H as [H|H]; [discriminate H|]). exact H.
Qed.

(** ** [read_features]: nothing but the first column is lost *)

Section DenseRoundTrip.

Context {V : Type}.

Lemma rows_nth_error_ext (l l' : list (list V)) :
  length l = length l' ->
  (forall i j, match nth_error l i with
               | Some r => nth_error r j
               | None => None
               end =
               match nth_error l' i with
               | Some r => nth_error r j
               | None => None
               end) ->
  l = l'.
Proof.
  revert l'. induction l as [|r l IH]; intros [|r' l'] Hlen H;
    try discriminate; [reflexivity|].
  f_equal.
  - apply nth_error_ext. intros j. exact (H 0%nat j).
  - apply IH; [now injection Hlen|]. intros i j. exact (H (S i) j).
Qed.

Lemma transpose_involutive (a : Np.ndarray V) :
  Np.rectangular a -> Np.transpose (Np.transpose a) = a.
Proof.
  intros Hrect. pose proof (rectangular_transpose a Hrect) as Ht.
  pose proof (rectangular_transpose _ Ht) as Htt.
  destruct a as [[r c] rows]. unfold Np.transpose at 1.
  cbn [Np.transpose Np.nd_shape Np.nd_rows fst snd] in *. f_equal.
  destruct Hrect as [Hr Hc]. destruct Htt as [Hr' _].
  cbn [Np.nd_shape Np.nd_rows fst snd] in Hr, Hc.
  apply rows_nth_error_ext; [rewrite Hr; exact Hr'|].
  intros i j.
  change (Np.item (Np.transpose (Np.transpose (Np.mk_nd (r, c) rows))) i j
          = Np.item (Np.mk_nd (r, c) rows) i j).
  rewrite item_transpose by exact Ht.
  apply item_transpose. now split.
Qed.

End DenseRoundTrip.

(** X12. Transposing the result of [read_features] gives the table back
    without its first column: the loader loses the node identifiers and
    nothing else. *)
Theorem read_features_round_trip {V : Type} (a : Np.ndarray V) :
  Np.rectangular a ->
  Np.transpose (read_features a) = Np.drop_first_column a.
Proof.
  intros Hrect. unfold read_features.
  apply transpose_involutive. now apply rectangular_drop_first_column.
Qed.

Lemma read_features_round_trip_witness :
  Np.transpose (read_features small_table) = Np.drop_first_column small_table.
Proof.
  apply (read_features_round_trip small_table).
  split; [reflexivity|]. repeat constructor.
Defined.

(** ** The target matrix grows with the order *)

Section Nonnegative.

Local Open Scope Q_scope.

Lemma Qplus_nonneg (a b : Q) : 0 <= a -> 0 <= b -> 0 <= a + b.
Proof.
  intros Ha Hb. rewrite <- (Qplus_0_l 0). now apply Qplus_le_compat.
Qed.

Lemma entry_of_nonneg (ts : list triple) (i j : Z) :
  Forall (fun t => 0 <= t_val t) ts -> 0 <= entry_of ts i j.
Proof.
  induction 1 as [|t ts Ht _ IH].
  - unfold entry_of. cbn. apply Qle_refl.
  - rewrite entry_of_cons. apply Qplus_nonneg; [|assumption].
    destruct (at_pos i j t); [assumption|apply Qle_refl].
Qed.

Lemma mul_nonnegative (A B : spmatrix) :
  nonnegative A -> nonnegative B -> nonnegative (mul A B).
Proof.
  unfold nonnegative. rewrite !Forall_forall. intros HA HB t Ht.
  unfold mul in Ht. cbn [triples] in Ht. unfold mul_triples in Ht.
  apply in_flat_map in Ht. destruct Ht as [x [Hx Ht]].
  apply in_map_iff in Ht. destruct Ht as [y [<- Hy]].
  apply filter_In in Hy. destruct Hy as [Hy _].
  unfold t_val at 1. cbn [snd].
  apply Qmult_le_0_compat; auto.
Qed.

Lemma plus_nonnegative (A B : spmatrix) :
  nonnegative A -> nonnegative B -> nonnegative (plus A B).
Proof.
  unfold nonnegative, plus. cbn [triples]. intros HA HB.
  apply Forall_app. now split.
Qed.

Lemma inverse_degree_nonneg (g : Nx.Graph) (v : Nx.node) (q : Q) :
  inverse_degree (Nx.degree g v) = Ok q -> 0 <= q.
Proof.
  unfold inverse_degree. destruct (Z.eqb_spec (Nx.degree g v) 0); [discriminate|].
  intros H. injection H as <-.
  assert (0 < Nx.degree g v)%Z as Hpos.
  { unfold Nx.degree, len in *. destruct (Nx.mem v (Nx.neighbors g v)); lia. }
  apply Qle_shift_div_l.
  - change 0 with (inject_Z 0). rewrite <- Zlt_Qlt. exact Hpos.
  - rewrite Qmult_0_l. discriminate.
Qed.

Lemma normalize_adjacency_nonnegative (g : Nx.Graph) (A : spmatrix) :
  normalize_adjacency g = Ok A -> nonnegative A.
Proof.
  intros H.
  destruct (normalize_adjacency_Ok _ _ H) as (degs & raw & D & Hdegs & Hraw & HD & ->).
  apply mul_nonnegative.
  - unfold nonnegative. rewrite (raw_adjacency_triples g raw Hraw).
    apply Forall_app; split; apply Forall_forall; intros t Ht;
      apply in_map_iff in Ht; destruct Ht as [e [<- _]]; discriminate.
  - unfold nonnegative. apply coo_matrix_triples in HD. rewrite HD.
    apply Forall_forall. intros [rc q] Ht. apply in_combine_r in Ht.
    unfold t_val. cbn [snd].
    apply mapM_Ok_Forall2 in Hdegs.
    clear - Hdegs Ht. induction Hdegs as [|v y vs ys Hy _ IH]; [contradiction|].
    destruct Ht as [<-|Ht]; [|now apply IH].
    eapply inverse_degree_nonneg. exact Hy.
Qed.

Variable A : spmatrix.
Hypothesis A_nonnegative : nonnegative A.

Lemma matrix_power_nonnegative (k : nat) : nonnegative (matrix_power A k).
Proof.
  destruct k as [|k]; [assumption|].
  induction k as [|k IH]; [assumption|].
  change (matrix_power A (S (S k))) with (mul (matrix_power A (S k)) A).
  now apply mul_nonnegative.
Qed.

Lemma power_series_nonnegative (k : nat) : nonnegative (power_series A k).
Proof.
  destruct k as [|k]; [assumption|].
  induction k as [|k IH]; [assumption|].
  change (power_series A (S (S k)))
    with (plus (power_series A (S k)) (matrix_power A (S (S k)))).
  apply plus_nonnegative; [assumption|apply matrix_power_nonnegative].
Qed.

Lemma power_series_step (k : nat) (i j : Z) :
  entry (power_series A (S k)) i j <= entry (power_series A (S (S k))) i j.
Proof.
  change (power_series A (S (S k)))
    with (plus (power_series A (S k)) (matrix_power A (S (S k)))).
  rewrite entry_plus.
  rewrite <- (Qplus_0_r (entry (power_series A (S k)) i j)) at 1.
  apply Qplus_le_compat; [apply Qle_refl|].
  apply entry_of_nonneg, matrix_power_nonnegative.
Qed.

End Nonnegative.

(** X13. No entry of the target matrix is negative, and no entry becomes
    smaller when the order is raised by one: higher orders only add
    proximity. *)
Theorem read_graph_monotone (rows : list (Z * Z)) (order : Z) (M M' : spmatrix) :
  read_graph rows order = Ok M ->
  read_graph rows (order + 1) = Ok M' ->
  forall i j, (0 <= entry M i j /\ entry M i j <= entry M' i j)%Q.
Proof.
  unfold read_graph. intros HM HM'.
  destruct (normalize_adjacency (Nx.from_edgelist rows)) as [A|e] eqn:HA;
    [cbn [bind] in HM, HM'|discriminate].
  pose proof (normalize_adjacency_nonnegative _ _ HA) as Hnn.
  pose proof (normalize_adjacency_square _ _ HA) as Hsq.
  assert (M = power_series A (Z.to_nat order)) as ->.
  { destruct (Z.ltb_spec 1 order) as [Hk|Hk].
    - rewrite (target_matrix_series A Hsq order Hk) in HM. now injection HM.
    - unfold target_matrix in HM.
      destruct (Z.gtb_spec order 1) as [|_]; [lia|]. injection HM as <-.
      destruct (Z.to_nat order) as [|[|n]] eqn:Hn; try reflexivity. lia. }
  assert (M' = power_series A (Z.to_nat (order + 1))) as ->.
  { destruct (Z.ltb_spec 1 (order + 1)) as [Hk|Hk].
    - rewrite (target_matrix_series A Hsq (order + 1) Hk) in HM'.
      now injection HM'.
    - unfold target_matrix in HM'.
      destruct (Z.gtb_spec (order + 1) 1) as [|_]; [lia|]. injection HM' as <-.
      destruct (Z.to_nat (order + 1)) as [|[|n]] eqn:Hn; try reflexivity. lia. }
  intros i j. split.
  - apply entry_of_nonneg, power_series_nonnegative, Hnn.
  - destruct (Z.leb_spec order 0) as [H0|H0].
    + replace (Z.to_nat order) with 0%nat by lia.
      destruct (Z.to_nat (order + 1)) as [|[|n]] eqn:Hn;
        try apply Qle_refl. lia.
    + replace (Z.to_nat (order + 1)) with (S (Z.to_nat order)) by lia.
      destruct (Z.to_nat order) as [|n] eqn:Hn; [lia|].
      now apply power_series_step.
Qed.

Lemma read_graph_monotone_witness :
  read_graph cycle4 2 = Ok (power_series cycle4_normalized 2) /\
  read_graph cycle4 (2 + 1) = Ok (power_series cycle4_normalized 3) /\
  forall i j,
    (0 <= entry (power_series cycle4_normalized 2) i j /\
     entry (power_series cycle4_normalized 2) i j
     <= entry (power_series cycle4_normalized 3) i j)%Q.
Proof.
  assert (read_graph cycle4 2 = Ok (power_series cycle4_normalized 2)) as H2
    by (vm_compute; reflexivity).
  assert (read_graph cycle4 (2 + 1) = Ok (power_series cycle4_normalized 3)) as H3
    by (vm_compute; reflexivity).
  split; [exact H2|]. split; [exact H3|].
  exact (read_graph_monotone cycle4 2 _ _ H2 H3).
Defined.

(** ** Repeated rows of the edge table *)

Lemma entry_neighbors (g : Nx.Graph) (p : Nx.node * list Nx.node) :
  NoDup (Nx.nodes g) -> In p g -> Nx.neighbors g (fst p) = snd p.
Proof.
  induction g as [|[m nbrs] g IH]; intros Hnd Hin; [contradiction|].
  cbn [Nx.nodes map fst] in Hnd. inversion Hnd as [|? ? Hm Hg]; subst.
  cbn [Nx.neighbors]. destruct Hin as [<-|Hin].
  - cbn [fst snd]. now rewrite Z.eqb_refl.
  - destruct (Z.eqb_spec m (fst p)) as [->|_]; [|now apply IH].
    exfalso. apply Hm. apply in_map_iff. now exists p.
Qed.

Lemma add_node_present (g : Nx.Graph) (n : Nx.node) :
  In n (Nx.nodes g) -> Nx.add_node g n = g.
Proof.
  intros H. unfold Nx.add_node, Nx.has_node.
  apply mem_In in H. now rewrite H.
Qed.

Lemma set_adj_present (g : Nx.Graph) (u v : Nx.node) :
  NoDup (Nx.nodes g) -> In v (Nx.neighbors g u) -> Nx.set_adj g u v = g.
Proof.
  intros Hnd Hv. unfold Nx.set_adj. rewrite <- (map_id g) at 2.
  apply map_ext_in. intros [k nbrs] Hp. cbn [fst snd].
  pose proof (entry_neighbors g (k, nbrs) Hnd Hp) as Hn. cbn [fst snd] in Hn.
  destruct (k =? u) eqn:Hu; [|reflexivity].
  apply Z.eqb_eq in Hu. subst k. rewrite Hn in Hv.
  apply mem_In in Hv. now rewrite Hv.
Qed.

(** Adding an edge that the graph already has changes nothing. *)
Lemma add_edge_present (g : Nx.Graph) (u v : Nx.node) :
  Nx.well_formed g -> In v (Nx.neighbors g u) -> Nx.add_edge g u v = g.
Proof.
  intros Hwf Hv. pose proof Hwf as (Hnd & _ & Hsym).
  unfold Nx.add_edge.
  rewrite (add_node_present g u) by (eapply neighbors_is_node; exact Hv).
  rewrite (add_node_present g v) by (eapply neighbor_is_node; eassumption).
  rewrite (set_adj_present g u v Hnd Hv).
  apply set_adj_present; [assumption|now apply Hsym].
Qed.

Lemma fold_first_occurrences (rows seen : list (Z * Z)) (g : Nx.Graph) :
  Nx.well_formed g ->
  (forall u v, linked seen u v = true <-> In v (Nx.neighbors g u)) ->
  fold_left (fun g e => Nx.add_edge g (fst e) (snd e))
            (first_occurrences seen rows) g =
  fold_left (fun g e => Nx.add_edge g (fst e) (snd e)) rows g.
Proof.
  revert seen g. induction rows as [|[a b] rows IH]; intros seen g Hwf Hinv;
    [reflexivity|].
  cbn [first_occurrences fold_left fst snd].
  destruct (linked seen a b) eqn:Hl.
  - rewrite (add_edge_present g a b Hwf) by (now apply Hinv).
    now apply IH.
  - cbn [fold_left fst snd]. apply IH.
    + now apply well_formed_add_edge.
    + intros u v. rewrite In_neighbors_add_edge, <- Hinv, !linked_In.
      cbn [In]. split.
      * intros [[H|H]|[H|H]]; try tauto; injection H as -> ->; tauto.
      * intros [[H|H]|[[-> ->]|[-> ->]]]; tauto.
Qed.

(** X14. Rows that repeat an earlier row of the edge table, in the same or
    in the opposite direction, have no effect at all: the graph and the
    result of [read_graph] are those of the table without them. *)
Theorem read_graph_ignores_repeated_rows (rows : list (Z * Z)) (order : Z) :
  Nx.from_edgelist (first_occurrences [] rows) = Nx.from_edgelist rows /\
  read_graph (first_occurrences [] rows) order = read_graph rows order.
Proof.
  assert (Nx.from_edgelist (first_occurrences [] rows) = Nx.from_edgelist rows)
    as Hg.
  { unfold Nx.from_edgelist. apply fold_first_occurrences.
    - apply well_formed_empty.
    - intros u v. cbn. split; [discriminate|tauto]. }
  split; [exact Hg|]. unfold read_graph. now rewrite Hg.
Qed.

Example repeated_rows_first_occurrences :
  first_occurrences [] repeated_rows = [(0, 1); (1, 2)].
Proof. reflexivity. Qed.
